(** * nanobana_gen: job store, batch aggregation, presets, filename derivation

    A shallow embedding of the Convex backend of the image localisation
    service (convex/jobs.ts, convex/publicJobs.ts, convex/presets.ts,
    convex/publicPresets.ts, convex/processing.ts and
    convex/utils/filenameUtils.ts) together with the properties stated about
    it.

    Conventions of the embedding.
    - The token counters are JavaScript numbers: IEEE 754 doubles
      ([spec_float] at precision 53), added as doubles. The [limit] and
      [offset] of a listing are integers ([Z]), clock readings
      ([Date.now()]) are [N].
    - A thrown value is anything JavaScript can throw, described by what
      reading its [message] gives.
    - A JavaScript string is a [string], read as a sequence of code units
      below 256.
    - An optional field of a document is an [option]; [None] is the absent
      field.
    - A handler that may throw returns a [result]; a handler that writes to a
      table takes the table and returns the table after its writes. *)

From Stdlib Require Import ZArith NArith String Ascii List Bool Lia.
From Stdlib Require Import DecimalString DecimalPos SpecFloat Sorted.
From stdpp Require Import base option list gmap strings.

Local Open Scope string_scope.
Local Open Scope list_scope.
Local Open Scope stdpp_scope.

(** ** JavaScript values shared by all modules *)

(** What reading the property [message] of a thrown value can give: a string
    (every [Error] object), a falsy value that is not a string ([undefined]
    when the property is missing, [null], [0], [false], [NaN]), or any other
    value, which is truthy. *)
Inductive MessageValue :=
| MsgString (s : string)
| MsgFalsy
| MsgTruthy.

(** A thrown value, as [catch (error: any)] receives it. Anything can be
    thrown: [undefined], [null], or a value of which the handlers read the
    property [message] and nothing else. The read gives a value or, for an
    accessor property, throws. *)
Inductive JsError :=
| ThrownUndefined
| ThrownNull
| Thrown (message : MessageRead)
with MessageRead :=
| Reads (v : MessageValue)
| ReadThrows (e : JsError).

(** [new Error(msg)]. *)
Definition Error (msg : string) : JsError := Thrown (Reads (MsgString msg)).

(** A [TypeError] of the engine: an [Error] object with its message. *)
Definition TypeError (msg : string) : JsError := Error msg.

Inductive result (A : Type) : Type :=
| Ok (a : A)
| Throw (e : JsError).
Arguments Ok {A} a.
Arguments Throw {A} e.

Definition is_ok {A} (r : result A) : bool :=
  match r with Ok _ => true | Throw _ => false end.

(** [s] in a boolean position: the empty string is falsy. *)
Definition truthy (s : string) : bool :=
  match s with EmptyString => false | String _ _ => true end.

(** [o || d] for an optional string: [undefined] and the empty string both
    give [d]. *)
Definition or_else (o : option string) (d : string) : string :=
  match o with
  | Some s => if truthy s then s else d
  | None => d
  end.

(** [error.message]: reading a property of [undefined] or of [null] throws a
    [TypeError], and an accessor throws what it likes. *)
Definition get_message (error : JsError) : result MessageValue :=
  match error with
  | ThrownUndefined =>
      Throw (TypeError "Cannot read properties of undefined (reading 'message')")
  | ThrownNull =>
      Throw (TypeError "Cannot read properties of null (reading 'message')")
  | Thrown (Reads v) => Ok v
  | Thrown (ReadThrows e) => Throw e
  end.

(** [m || d] for a string [d]. *)
Definition message_or (m : MessageValue) (d : string) : MessageValue :=
  match m with
  | MsgString s => MsgString (or_else (Some s) d)
  | MsgFalsy => MsgString d
  | MsgTruthy => MsgTruthy
  end.

(** The argument validator [v.string()]: a call of a Convex function with a
    value that is not a string is refused, and the caller's
    [ctx.runMutation] rejects. *)
Definition ArgumentValidationError : JsError :=
  Error "ArgumentValidationError: Value does not match validator.".

Definition v_string (m : MessageValue) : result string :=
  match m with
  | MsgString s => Ok s
  | _ => Throw ArgumentValidationError
  end.

(** ** Numbers

    A JavaScript number, and a [v.number()] of Convex, is an IEEE 754
    binary64 value. The token counters are such numbers, with the addition of
    the standard (round to nearest, ties to even). *)
Abbreviation number := spec_float.

Definition prec : Z := 53.
Definition emax : Z := 1024.

(** The values of [spec_float] that are doubles. *)
Definition is_double (x : number) : bool := valid_binary prec emax x.

(** The literal [0]. *)
Definition zero : number := S754_zero false.

(** [x + y]. *)
Definition number_add (x y : number) : number := SFadd prec emax x y.

(** The number an integer literal denotes: the double nearest to it. *)
Definition of_Z (z : Z) : number := binary_normalize prec emax z 0 false.

(** The exponent of a finite number is not below the exponent of the
    subnormal numbers, as it is for every double. *)
Definition exponent_ok (x : number) : bool :=
  match x with
  | S754_finite _ _ e => (emin prec emax <=? e)%Z
  | _ => true
  end.

Definition not_negative_zero (x : number) : bool :=
  match x with S754_zero true => false | _ => true end.

(** [x] in a boolean position: [0], [-0] and [NaN] are falsy. *)
Definition number_truthy (x : number) : bool :=
  match x with
  | S754_zero _ | S754_nan => false
  | _ => true
  end.

(** [x || d] for an optional number. *)
Definition number_or (x : option number) (d : number) : number :=
  match x with
  | Some n => if number_truthy n then n else d
  | None => d
  end.

(** [Array.prototype.slice(start, end)] on integer arguments: a negative index
    counts from the end, and both are clamped to the array. *)
Definition js_slice {A} (l : list A) (start stop : Z) : list A :=
  let len := Z.of_nat (length l) in
  let rel (i : Z) := if (i <? 0)%Z then Z.max (len + i) 0 else Z.min i len in
  let k := rel start in
  let fin := rel stop in
  take (Z.to_nat (fin - k)) (drop (Z.to_nat k) l).

(** ** Schema (convex/schema.ts) *)

Inductive Status := pending | processing | completed | failed.

Global Instance Status_eq_dec : EqDecision Status.
Proof. solve_decision. Defined.

Definition Status_eqb (a b : Status) : bool := bool_decide (a = b).

(** [configValidator]. [ownLogoData] is [v.optional(v.union(v.string(),
    v.null()))]: absent, [null] or a string. *)
Record Config := mkConfig {
  targetCountry : string;
  additionalContext : string;
  removeBranding : bool;
  addBrandingColors : bool;
  brandingColor : string;
  addOwnLogo : bool;
  ownLogoData : option (option string);
  filenameFindPattern : string;
  filenameReplacePattern : string;
  modelVersion : option string;
  aspectRatio : option string;
  imageSize : option string
}.

(** Storage ids ([v.id("_storage")]) are opaque strings; a job id
    ([v.id("jobs")]) is the position of the job in its table. *)
Definition StorageId := string.
Definition JobId := nat.

(** A document of the [jobs] table, without its system fields. *)
Record Job := mkJob {
  batchId : option string;
  sourceUrl : string;
  presetName : option string;
  config : Config;
  status : Status;
  error : option string;
  generatedFileId : option StorageId;
  generatedFileName : option string;
  generatedUrl : option string;
  generatedUrlWithExtension : option string;
  promptTokens : option number;
  candidateTokens : option number;
  totalTokens : option number;
  createdAt : N;
  completedAt : option N
}.

(** ** The [jobs] table

    The core never deletes a job, so the table is the list of its documents in
    insertion order and the [_id] of a document is its position: insertion
    order is [_creationTime] order. *)
Abbreviation JobTable := (list Job).

(** A document as a query returns it: the [_id] and the fields. *)
Definition JobDoc : Type := JobId * Job.

Definition docs (t : JobTable) : list JobDoc := imap (fun i j => (i, j)) t.

(** [ctx.db.insert("jobs", j)]. *)
Definition db_insert (j : Job) (t : JobTable) : JobId * JobTable :=
  (length t, t ++ [j]).

(** [ctx.db.get(id)]. *)
Definition db_get (id : JobId) (t : JobTable) : option Job := t !! id.

(** [ctx.db.patch(id, fields)]: [f] overwrites the patched fields; patching a
    document that does not exist throws and writes nothing. *)
Definition db_patch (id : JobId) (f : Job -> Job) (t : JobTable)
  : result unit * JobTable :=
  match t !! id with
  | Some j => (Ok tt, <[id := f j]> t)
  | None => (Throw (Error "Update on nonexistent document ID"), t)
  end.

(** [.withIndex("by_batchId", q => q.eq("batchId", b)).collect()]: the
    documents whose [batchId] is [b], in creation order. *)
Definition by_batchId (b : string) (t : JobTable) : list JobDoc :=
  filter (fun d => batchId d.2 = Some b) (docs t).

(** [.withIndex("by_status", q => q.eq("status", s)).collect()]. *)
Definition by_status (s : Status) (t : JobTable) : list JobDoc :=
  filter (fun d => status d.2 = s) (docs t).

(** Insertion into a list that is descending in [createdAt]; the inserted
    document goes after the documents with the same [createdAt]. *)
Fixpoint insert_desc (d : JobDoc) (l : list JobDoc) : list JobDoc :=
  match l with
  | [] => [d]
  | x :: l' =>
      if (createdAt d.2 <=? createdAt x.2)%N then x :: insert_desc d l'
      else d :: l
  end.

(** [.withIndex("by_createdAt").order("desc").collect()]: descending
    [createdAt], and for equal [createdAt] the later document first. *)
Definition by_createdAt_desc (t : JobTable) : list JobDoc :=
  foldr insert_desc [] (docs t).

(** Field updates of a job document, as [ctx.db.patch] performs them. An
    [option] argument that is [None] is a key whose value is [undefined]: the
    patch removes the field. *)
Definition set_status (s : Status) (j : Job) : Job :=
  mkJob (batchId j) (sourceUrl j) (presetName j) (config j) s (error j)
    (generatedFileId j) (generatedFileName j) (generatedUrl j)
    (generatedUrlWithExtension j) (promptTokens j) (candidateTokens j)
    (totalTokens j) (createdAt j) (completedAt j).

Definition set_error (e : option string) (j : Job) : Job :=
  mkJob (batchId j) (sourceUrl j) (presetName j) (config j) (status j) e
    (generatedFileId j) (generatedFileName j) (generatedUrl j)
    (generatedUrlWithExtension j) (promptTokens j) (candidateTokens j)
    (totalTokens j) (createdAt j) (completedAt j).

Definition set_generatedFileId (f : option StorageId) (j : Job) : Job :=
  mkJob (batchId j) (sourceUrl j) (presetName j) (config j) (status j)
    (error j) f (generatedFileName j) (generatedUrl j)
    (generatedUrlWithExtension j) (promptTokens j) (candidateTokens j)
    (totalTokens j) (createdAt j) (completedAt j).

Definition set_generatedFileName (n : option string) (j : Job) : Job :=
  mkJob (batchId j) (sourceUrl j) (presetName j) (config j) (status j)
    (error j) (generatedFileId j) n (generatedUrl j)
    (generatedUrlWithExtension j) (promptTokens j) (candidateTokens j)
    (totalTokens j) (createdAt j) (completedAt j).

Definition set_generatedUrl (u : option string) (j : Job) : Job :=
  mkJob (batchId j) (sourceUrl j) (presetName j) (config j) (status j)
    (error j) (generatedFileId j) (generatedFileName j) u
    (generatedUrlWithExtension j) (promptTokens j) (candidateTokens j)
    (totalTokens j) (createdAt j) (completedAt j).

Definition set_generatedUrlWithExtension (u : option string) (j : Job) : Job :=
  mkJob (batchId j) (sourceUrl j) (presetName j) (config j) (status j)
    (error j) (generatedFileId j) (generatedFileName j) (generatedUrl j) u
    (promptTokens j) (candidateTokens j) (totalTokens j) (createdAt j)
    (completedAt j).

Definition set_usage (p c tot : option number) (j : Job) : Job :=
  mkJob (batchId j) (sourceUrl j) (presetName j) (config j) (status j)
    (error j) (generatedFileId j) (generatedFileName j) (generatedUrl j)
    (generatedUrlWithExtension j) p c tot (createdAt j) (completedAt j).

Definition set_completedAt (c : option N) (j : Job) : Job :=
  mkJob (batchId j) (sourceUrl j) (presetName j) (config j) (status j)
    (error j) (generatedFileId j) (generatedFileName j) (generatedUrl j)
    (generatedUrlWithExtension j) (promptTokens j) (candidateTokens j)
    (totalTokens j) (createdAt j) c.

(** The result of [getBatchSummary]. The four counters are the fields
    [completed], [failed], [pending] and [processing] of the source. *)
Record BatchSummary := mkSummary {
  total : nat;
  count_completed : nat;
  count_failed : nat;
  count_pending : nat;
  count_processing : nat;
  sum_totalTokens : number
}.

(** [jobs.filter((j) => j.status === s).length]. *)
Definition count_status (s : Status) (jobs : list JobDoc) : nat :=
  length (filter (fun d => status d.2 = s) jobs).

(** [jobs.reduce((sum, j) => sum + (j.totalTokens ?? 0), 0)]. *)
Definition reduce_totalTokens (jobs : list JobDoc) : number :=
  fold_left (fun sum d => number_add sum (default zero (totalTokens d.2)))
    jobs zero.

Definition summarize (jobs : list JobDoc) : BatchSummary :=
  {| total := length jobs;
     count_completed := count_status completed jobs;
     count_failed := count_status failed jobs;
     count_pending := count_status pending jobs;
     count_processing := count_status processing jobs;
     sum_totalTokens := reduce_totalTokens jobs |}.

(** The page a [list] query returns. *)
Record JobPage := mkPage {
  page_jobs : list JobDoc;
  page_total : nat;
  page_limit : Z;
  page_offset : Z
}.

(** The body shared by [jobs.list] and [publicJobs.listJobs]: the three-way
    choice of the index and the in-memory slice. *)
Definition list_handler (limit offset : option Z) (st : option Status)
    (b : option string) (t : JobTable) : JobPage :=
  let limit := default 50%Z limit in
  let offset := default 0%Z offset in
  let otherwise :=
    match st with
    | Some s => by_status s t
    | None => by_createdAt_desc t
    end in
  let allJobs :=
    match b with
    | Some bid => if truthy bid then by_batchId bid t else otherwise
    | None => otherwise
    end in
  {| page_jobs := js_slice allJobs offset (offset + limit);
     page_total := length allJobs;
     page_limit := limit;
     page_offset := offset |}.

(** ** convex/jobs.ts: the internal job functions *)
Module Jobs.

Definition create (sourceUrl : string) (config : Config)
    (presetName batchId : option string) (now : N) (t : JobTable)
  : JobId * JobTable :=
  db_insert
    {| batchId := batchId; sourceUrl := sourceUrl; presetName := presetName;
       config := config; status := pending; error := None;
       generatedFileId := None; generatedFileName := None;
       generatedUrl := None; generatedUrlWithExtension := None;
       promptTokens := None; candidateTokens := None; totalTokens := None;
       createdAt := now; completedAt := None |} t.

Definition setProcessing (jobId : JobId) (t : JobTable)
  : result unit * JobTable :=
  db_patch jobId (set_status processing) t.

Definition setCompleted (jobId : JobId) (generatedFileId : StorageId)
    (generatedFileName generatedUrl : string)
    (promptTokens candidateTokens totalTokens : option number) (now : N)
    (t : JobTable) : result unit * JobTable :=
  db_patch jobId
    (fun j =>
       set_completedAt (Some now)
         (set_usage promptTokens candidateTokens totalTokens
            (set_generatedUrl (Some generatedUrl)
               (set_generatedFileName (Some generatedFileName)
                  (set_generatedFileId (Some generatedFileId)
                     (set_status completed j)))))) t.

Definition setFailed (jobId : JobId) (error : string) (now : N)
    (t : JobTable) : result unit * JobTable :=
  db_patch jobId
    (fun j => set_completedAt (Some now)
                (set_error (Some error) (set_status failed j))) t.

Definition getById (jobId : JobId) (t : JobTable) : option Job :=
  db_get jobId t.

Definition getByBatchId (batchId : string) (t : JobTable) : list JobDoc :=
  by_batchId batchId t.

Definition getBatchSummary (batchId : string) (t : JobTable)
  : BatchSummary :=
  summarize (by_batchId batchId t).

(** [list] returns [{ jobs, total }]. *)
Definition list (limit offset : option Z) (st : option Status)
    (batchId : option string) (t : JobTable) : list JobDoc * nat :=
  let p := list_handler limit offset st batchId t in
  (page_jobs p, page_total p).

End Jobs.

(** [s.lastIndexOf(needle)], [None] for -1. *)
Fixpoint lastIndexOf_from (needle s : string) (i : nat) (acc : option nat)
  : option nat :=
  let acc' := if String.prefix needle s then Some i else acc in
  match s with
  | EmptyString => acc'
  | String _ s' => lastIndexOf_from needle s' (S i) acc'
  end.

Definition lastIndexOf (needle s : string) : option nat :=
  lastIndexOf_from needle s 0 None.

(** ** convex/publicJobs.ts: the job functions the frontend calls *)
Module PublicJobs.

Definition listJobs (limit offset : option Z) (st : option Status)
    (batchId : option string) (t : JobTable) : JobPage :=
  list_handler limit offset st batchId t.

Definition getJob (jobId : JobId) (t : JobTable) : option Job :=
  db_get jobId t.

Definition getJobsByBatch (batchId : string) (t : JobTable)
  : list JobDoc :=
  by_batchId batchId t.

(** [getBatchSummary] returns the batch id next to the counters. *)
Definition getBatchSummary (batchId : string) (t : JobTable)
  : string * BatchSummary :=
  (batchId, summarize (by_batchId batchId t)).

(** [createJob] stores the source name as [generatedFileName]. *)
Definition createJob (sourceUrl sourceName : string) (config : Config)
    (presetName batchId : option string) (now : N) (t : JobTable)
  : JobId * JobTable :=
  db_insert
    {| batchId := batchId; sourceUrl := sourceUrl; presetName := presetName;
       config := config; status := pending; error := None;
       generatedFileId := None; generatedFileName := Some sourceName;
       generatedUrl := None; generatedUrlWithExtension := None;
       promptTokens := None; candidateTokens := None; totalTokens := None;
       createdAt := now; completedAt := None |} t.

Definition setJobProcessing (jobId : JobId) (t : JobTable)
  : result unit * JobTable :=
  db_patch jobId (set_status processing) t.

Definition setJobCompleted (jobId : JobId)
    (generatedUrl generatedFileName : string)
    (promptTokens candidateTokens totalTokens : option number) (now : N)
    (t : JobTable) : result unit * JobTable :=
  db_patch jobId
    (fun j =>
       set_completedAt (Some now)
         (set_usage promptTokens candidateTokens totalTokens
            (set_generatedFileName (Some generatedFileName)
               (set_generatedUrl (Some generatedUrl)
                  (set_status completed j))))) t.

Definition setJobFailed (jobId : JobId) (error : string) (now : N)
    (t : JobTable) : result unit * JobTable :=
  db_patch jobId
    (fun j => set_completedAt (Some now)
                (set_error (Some error) (set_status failed j))) t.

(** [setJobCompletedWithFile]. [fileUrl] is what
    [ctx.storage.getUrl(storageId)] answers, [None] for [null]. *)
Definition setJobCompletedWithFile (jobId : JobId) (storageId : StorageId)
    (generatedFileName : string)
    (promptTokens candidateTokens totalTokens : option number)
    (fileUrl : option string) (now : N) (t : JobTable)
  : result unit * JobTable :=
  let urlWithExtension :=
    match fileUrl with
    | Some u =>
        if truthy u then
          let baseUrl :=
            match lastIndexOf "/api/storage" u with
            | Some i => String.substring 0 i u
            | None => ""
            end in
          Some (baseUrl +:+ "/api/files?id=" +:+ storageId +:+ ".png")
        else None
    | None => None
    end in
  let url :=
    match fileUrl with
    | Some u => if truthy u then Some u else None
    | None => None
    end in
  db_patch jobId
    (fun j =>
       set_completedAt (Some now)
         (set_usage promptTokens candidateTokens totalTokens
            (set_generatedUrlWithExtension urlWithExtension
               (set_generatedUrl url
                  (set_generatedFileName (Some generatedFileName)
                     (set_generatedFileId (Some storageId)
                        (set_status completed j))))))) t.

End PublicJobs.

(** ** Runs of the job store

    One call of a mutation of either module, with the clock reading its
    [Date.now()] sees. *)
Inductive JobOp :=
| OpCreate (sourceUrl : string) (config : Config)
    (presetName batchId : option string)
| OpSetProcessing (jobId : JobId)
| OpSetCompleted (jobId : JobId) (generatedFileId : StorageId)
    (generatedFileName generatedUrl : string)
    (promptTokens candidateTokens totalTokens : option number)
| OpSetFailed (jobId : JobId) (error : string)
| OpCreateJob (sourceUrl sourceName : string) (config : Config)
    (presetName batchId : option string)
| OpSetJobProcessing (jobId : JobId)
| OpSetJobCompleted (jobId : JobId) (generatedUrl generatedFileName : string)
    (promptTokens candidateTokens totalTokens : option number)
| OpSetJobFailed (jobId : JobId) (error : string)
| OpSetJobCompletedWithFile (jobId : JobId) (storageId : StorageId)
    (generatedFileName : string)
    (promptTokens candidateTokens totalTokens : option number)
    (fileUrl : option string).

Definition apply_op (o : JobOp) (now : N) (t : JobTable) : JobTable :=
  match o with
  | OpCreate u c p b => (Jobs.create u c p b now t).2
  | OpSetProcessing i => (Jobs.setProcessing i t).2
  | OpSetCompleted i f n u p c tot =>
      (Jobs.setCompleted i f n u p c tot now t).2
  | OpSetFailed i e => (Jobs.setFailed i e now t).2
  | OpCreateJob u n c p b => (PublicJobs.createJob u n c p b now t).2
  | OpSetJobProcessing i => (PublicJobs.setJobProcessing i t).2
  | OpSetJobCompleted i u n p c tot =>
      (PublicJobs.setJobCompleted i u n p c tot now t).2
  | OpSetJobFailed i e => (PublicJobs.setJobFailed i e now t).2
  | OpSetJobCompletedWithFile i s n p c tot u =>
      (PublicJobs.setJobCompletedWithFile i s n p c tot u now t).2
  end.

(** The table after a sequence of calls, each with its clock reading. *)
Definition run (ops : list (JobOp * N)) (t : JobTable) : JobTable :=
  fold_left (fun t o => apply_op o.1 o.2 t) ops t.

(** The tables the mutations can produce from the empty table. *)
Definition reachable (t : JobTable) : Prop := exists ops, t = run ops [].

(** ** The [presets] table

    A preset document is [{ name, ...config, createdAt, updatedAt }]; the
    twelve configuration fields are kept together as a [Config]. Presets are
    deleted as well as inserted, so the table is a finite map from document
    ids to documents. *)
Definition PresetId := nat.

Record Preset := mkPreset {
  preset_name : string;
  preset_config : Config;
  preset_createdAt : N;
  preset_updatedAt : N
}.

Abbreviation PresetTable := (gmap PresetId Preset).

Definition PresetDoc : Type := PresetId * Preset.

(** [.withIndex("by_name", q => q.eq("name", n))]: the documents named [n]. *)
Definition by_name (n : string) (t : PresetTable) : list PresetDoc :=
  map_to_list (filter (fun d : PresetId * Preset => preset_name d.2 = n) t).

(** [.unique()]: [null] for no document, the document when there is one, and
    an exception when there are several. *)
Definition unique {A} (l : list A) : result (option A) :=
  match l with
  | [] => Ok None
  | [d] => Ok (Some d)
  | _ => Throw (Error "unique() query returned more than one result")
  end.

(** [ctx.db.insert("presets", p)]: the document gets an id no document has. *)
Definition presets_insert (p : Preset) (t : PresetTable)
  : PresetId * PresetTable :=
  let id := fresh (dom t) in (id, <[id := p]> t).

(** A key of a patch object built with [...args.config]: a key the argument
    has overwrites the stored field, a key it lacks leaves the stored field. *)
Definition patch_field {A} (new old : option A) : option A :=
  match new with
  | Some v => Some v
  | None => old
  end.

(** The effect of the patch [{ ...c, updatedAt }] on the configuration fields
    of a stored preset. The eight required fields are always keys of [c]. *)
Definition patch_config (c old : Config) : Config :=
  {| targetCountry := targetCountry c;
     additionalContext := additionalContext c;
     removeBranding := removeBranding c;
     addBrandingColors := addBrandingColors c;
     brandingColor := brandingColor c;
     addOwnLogo := addOwnLogo c;
     ownLogoData := patch_field (ownLogoData c) (ownLogoData old);
     filenameFindPattern := filenameFindPattern c;
     filenameReplacePattern := filenameReplacePattern c;
     modelVersion := patch_field (modelVersion c) (modelVersion old);
     aspectRatio := patch_field (aspectRatio c) (aspectRatio old);
     imageSize := patch_field (imageSize c) (imageSize old) |}.

(** The double quote, for the messages that quote a name. *)
Definition dquote : string := String (ascii_of_nat 34) EmptyString.

Definition already_exists (n : string) : JsError :=
  Error ("Preset with name " +:+ dquote +:+ n +:+ dquote +:+ " already exists").

Definition not_found (n : string) : JsError :=
  Error ("Preset " +:+ dquote +:+ n +:+ dquote +:+ " not found").

(** White space of [String.prototype.trim] among the code units below 256. *)
Definition is_whitespace (c : ascii) : bool :=
  let n := nat_of_ascii c in
  ((9 <=? n) && (n <=? 13) || (n =? 32) || (n =? 160))%nat.

Fixpoint trimStart (s : string) : string :=
  match s with
  | EmptyString => EmptyString
  | String c s' => if is_whitespace c then trimStart s' else s
  end.

Fixpoint trimEnd (s : string) : string :=
  match s with
  | EmptyString => EmptyString
  | String c s' =>
      match trimEnd s' with
      | EmptyString => if is_whitespace c then EmptyString else String c EmptyString
      | r => String c r
      end
  end.

Definition trim (s : string) : string := trimEnd (trimStart s).

(** The body shared by the two [create] handlers, after their validation. *)
Definition create_handler (name : string) (config : Config) (now : N)
    (t : PresetTable) : result PresetId * PresetTable :=
  match unique (by_name name t) with
  | Throw e => (Throw e, t)
  | Ok (Some _) => (Throw (already_exists name), t)
  | Ok None =>
      let '(id, t') := presets_insert (mkPreset name config now now) t in
      (Ok id, t')
  end.

(** The body shared by the two [update] handlers. *)
Definition update_handler (name : string) (config : Config) (now : N)
    (t : PresetTable) : result unit * PresetTable :=
  match unique (by_name name t) with
  | Throw e => (Throw e, t)
  | Ok None => (Throw (not_found name), t)
  | Ok (Some existing) =>
      (Ok tt,
       <[existing.1 :=
           mkPreset (preset_name existing.2)
             (patch_config config (preset_config existing.2))
             (preset_createdAt existing.2) now]> t)
  end.

(** The body shared by the two [delete] handlers. *)
Definition delete_handler (name : string) (t : PresetTable)
  : result unit * PresetTable :=
  match unique (by_name name t) with
  | Throw e => (Throw e, t)
  | Ok None => (Throw (not_found name), t)
  | Ok (Some existing) => (Ok tt, delete existing.1 t)
  end.

(** ** convex/presets.ts: the internal preset functions *)
Module Presets.

Definition create (name : string) (config : Config) (now : N)
    (t : PresetTable) : result PresetId * PresetTable :=
  create_handler name config now t.

Definition getByName (name : string) (t : PresetTable)
  : result (option PresetDoc) :=
  unique (by_name name t).

Definition update (name : string) (config : Config) (now : N)
    (t : PresetTable) : result unit * PresetTable :=
  update_handler name config now t.

Definition deleteByName (name : string) (t : PresetTable)
  : result unit * PresetTable :=
  delete_handler name t.

End Presets.

(** ** convex/publicPresets.ts: the preset functions the frontend calls *)
Module PublicPresets.

Definition getPreset (name : string) (t : PresetTable)
  : result (option PresetDoc) :=
  unique (by_name name t).

Definition getPresetById (id : PresetId) (t : PresetTable)
  : option Preset :=
  t !! id.

(** [createPreset] rejects a blank name before it looks the name up. *)
Definition createPreset (name : string) (config : Config) (now : N)
    (t : PresetTable) : result PresetId * PresetTable :=
  if negb (truthy name) || (String.length (trim name) =? 0)%nat
  then (Throw (Error "Preset name cannot be empty"), t)
  else create_handler name config now t.

Definition updatePreset (name : string) (config : Config) (now : N)
    (t : PresetTable) : result unit * PresetTable :=
  update_handler name config now t.

Definition deletePreset (name : string) (t : PresetTable)
  : result unit * PresetTable :=
  delete_handler name t.

Definition isPresetNameAvailable (name : string) (t : PresetTable)
  : result bool :=
  match unique (by_name name t) with
  | Ok existing => Ok (negb (bool_decide (is_Some existing)))
  | Throw e => Throw e
  end.

End PublicPresets.

(** ** JavaScript strings *)

(** [n.toString()] for a non-negative integer below 10^21. *)
Definition toString (n : N) : string := NilEmpty.string_of_uint (N.to_uint n).

(** [s.substring(n)]. *)
Fixpoint string_drop (n : nat) (s : string) : string :=
  match n, s with
  | O, _ => s
  | S n', String _ s' => string_drop n' s'
  | S _, EmptyString => EmptyString
  end.

(** [s.split(sep)] for a separator of one code unit. *)
Fixpoint split (sep : ascii) (s : string) : list string :=
  match s with
  | EmptyString => [EmptyString]
  | String c s' =>
      let r := split sep s' in
      if (c =? sep)%char then EmptyString :: r
      else match r with
           | h :: tl => String c h :: tl
           | [] => [String c EmptyString]
           end
  end.

Definition is_digit (c : ascii) : bool :=
  let n := nat_of_ascii c in ((48 <=? n) && (n <=? 57))%nat.

Definition digit_value (c : ascii) : nat := nat_of_ascii c - 48.

Definition lower (c : ascii) : ascii :=
  let n := nat_of_ascii c in
  if ((65 <=? n) && (n <=? 90))%nat then ascii_of_nat (n + 32) else c.

Fixpoint toLowerCase (s : string) : string :=
  match s with
  | EmptyString => EmptyString
  | String c s' => String (lower c) (toLowerCase s')
  end.

(** [s] ends with [suffix]. *)
Fixpoint endsWith (suffix s : string) : bool :=
  if (s =? suffix)%string then true
  else match s with
       | EmptyString => false
       | String _ s' => endsWith suffix s'
       end.

(** The position of the first [c] in [s]. *)
Fixpoint indexOf (c : ascii) (s : string) : option nat :=
  match s with
  | EmptyString => None
  | String d s' => if (d =? c)%char then Some 0 else S <$> indexOf c s'
  end.

(** ** Regular expressions

    What [RegExp.prototype.exec] answers for a match: where it starts, the
    matched text, the captures 1 to m ([None] for a group that did not
    take part), and the named captures when the pattern has named groups. *)
Record MatchResult := mkMatch {
  m_index : nat;
  m_matched : string;
  m_captures : list (option string);
  m_groups : option (list (string * option string))
}.

(** The regular expression engine of the platform, for expressions without
    flags: [compile p] is [new RegExp(p)], which throws on a malformed
    pattern, and [exec] is a pure function of the expression and the subject
    because such an expression keeps no [lastIndex]. *)
Class RegExp := {
  regex : Type;
  compile : string -> result regex;
  exec : regex -> string -> option MatchResult
}.

(** The replacement for a [$] of the template that is followed by [s']:
    the length of the reference and the text it stands for, or [None] when
    the [$] stands for itself. Follows GetSubstitution of ECMA-262: [$$],
    [$&], [$`], [$'], [$n], [$nn] (read as [$n] when there are fewer than nn
    captures) and [$<name>]. *)
Definition dollar_ref (m : MatchResult) (str s' : string)
  : option (nat * string) :=
  match s' with
  | EmptyString => None
  | String c rest =>
      if (c =? "$")%char then Some (2, "$")
      else if (c =? "`")%char then Some (2, String.substring 0 (m_index m) str)
      else if (c =? "&")%char then Some (2, m_matched m)
      else if (c =? "'")%char then
        Some (2, string_drop (m_index m + String.length (m_matched m)) str)
      else if is_digit c then
        let captureLen := length (m_captures m) in
        let one := digit_value c in
        let two :=
          match rest with
          | String c2 _ =>
              if is_digit c2 then Some (10 * one + digit_value c2) else None
          | EmptyString => None
          end in
        let '(digitCount, index) :=
          match two with
          | Some i => if (captureLen <? i)%nat then (1, one) else (2, i)
          | None => (1, one)
          end in
        if ((1 <=? index) && (index <=? captureLen))%nat
        then Some (1 + digitCount,
                   default "" (mjoin (m_captures m !! (index - 1))))
        else None
      else if (c =? "<")%char then
        match m_groups m, indexOf ">" rest with
        | Some groups, Some gt =>
            let groupName := String.substring 0 gt rest in
            let capture :=
              mjoin (snd <$> List.find (fun g => (g.1 =? groupName)%string) groups) in
            Some (gt + 3, default "" capture)
        | _, _ => None
        end
      else None
  end.

(** The template [tpl] expanded from left to right; [skip] counts the code
    units that still belong to the reference just replaced. *)
Fixpoint substitute (m : MatchResult) (str : string) (skip : nat)
    (tpl : string) : string :=
  match tpl with
  | EmptyString => EmptyString
  | String c tpl' =>
      match skip with
      | S k => substitute m str k tpl'
      | O =>
          if (c =? "$")%char then
            match dollar_ref m str tpl' with
            | Some (refLength, text) =>
                text +:+ substitute m str (refLength - 1) tpl'
            | None => String c (substitute m str 0 tpl')
            end
          else String c (substitute m str 0 tpl')
      end
  end.

Definition GetSubstitution (m : MatchResult) (str tpl : string) : string :=
  substitute m str 0 tpl.

(** [template.replace(/TIMESTAMP/g, ts)] for a [ts] of decimal digits: every
    occurrence of the token, from left to right, becomes [ts]. *)
Fixpoint replace_TIMESTAMP (ts : string) (skip : nat) (template : string)
  : string :=
  match template with
  | EmptyString => EmptyString
  | String c s' =>
      match skip with
      | S k => replace_TIMESTAMP ts k s'
      | O =>
          if String.prefix "TIMESTAMP" template
          then ts +:+ replace_TIMESTAMP ts 8 s'
          else String c (replace_TIMESTAMP ts 0 s')
      end
  end.

(** [/\.(png|jpg|jpeg|webp|gif)$/i.test(name)]. *)
Definition hasExtension (name : string) : bool :=
  existsb (fun e => endsWith e (toLowerCase name))
    [".png"; ".jpg"; ".jpeg"; ".webp"; ".gif"].

(** ** convex/utils/filenameUtils.ts *)
Section FilenameUtils.

Context {engine : RegExp}.

(** [regex.test(s)]. *)
Definition test (r : regex) (s : string) : bool :=
  match exec r s with
  | Some _ => true
  | None => false
  end.

(** [str.replace(r, tpl)] for an expression without the [g] flag: the
    first match is replaced by the expanded template. *)
Definition replace (str : string) (r : regex) (tpl : string) : string :=
  match exec r str with
  | None => str
  | Some m =>
      String.substring 0 (m_index m) str
      +:+ GetSubstitution m str tpl
      +:+ string_drop (m_index m + String.length (m_matched m)) str
  end.

(** The first lines of [generateOutputFilename]: the working name. *)
Definition working_name (originalName : string) : string :=
  if String.prefix "http" originalName then
    let urlParts := split "/" originalName in
    let segment := List.last urlParts EmptyString in
    or_else (head (split "?" segment)) "image"
  else originalName.

(** The body of the [try] block: [Ok (Some name)] when it returns [name],
    [Ok None] when it falls out of the block, [Throw] when [new RegExp]
    throws. *)
Definition try_rename (filename findPattern replacePattern : string)
    (now : N) : result (option string) :=
  match compile findPattern with
  | Throw e => Throw e
  | Ok re =>
      if test re filename then
        let timestamp := toString now in
        let preparedReplacement :=
          replace_TIMESTAMP timestamp 0 replacePattern in
        let newName := replace filename re preparedReplacement in
        if hasExtension newName then Ok (Some newName)
        else Ok (Some (newName +:+ ".png"))
      else Ok None
  end.

(** The fallback after the [if]. *)
Definition default_name (now : N) : string :=
  "localized_" +:+ toString now +:+ ".png".

Definition generateOutputFilename
    (originalName findPattern replacePattern : string) (now : N) : string :=
  let filename := working_name originalName in
  if truthy findPattern && truthy replacePattern then
    match try_rename filename findPattern replacePattern now with
    | Ok (Some name) => name
    | Ok None => default_name now
    | Throw _ => default_name now
    end
  else default_name now.

End FilenameUtils.

(** ** A backtracking matcher for ECMAScript patterns

    An instance of [RegExp] that follows the pattern semantics of ECMA-262
    (22.2.2) for patterns without flags built from: pattern characters, [.],
    the assertions [^] and [$], the escapes [\d \D \w \W \s \S \t \n \v \f \r]
    and the escape of any character that is neither a letter nor a digit,
    character classes with ranges and negation, capturing and [(?:)] groups,
    alternation, and the quantifiers [*], [+] and [?] with their lazy forms.
    [compile] throws for a malformed pattern; it also throws for a pattern
    outside this fragment (braces, lookaround, named groups, and the other
    escapes of a letter or a digit). *)
Module Backtracking.

Inductive ClassAtom :=
| CChar (c : ascii)
| CRange (lo hi : ascii)
| CDigit (negated : bool)
| CWord (negated : bool)
| CSpace (negated : bool).

Inductive Re :=
| REmpty
| RChar (c : ascii)
| RDot
| RClass (negated : bool) (atoms : list ClassAtom)
| RStart
| REnd
| RSeq (a b : Re)
| RAlt (a b : Re)
| RGroup (i : nat) (r : Re)
| RRepeat (min : nat) (max : option nat) (greedy : bool) (r : Re).

(** A compiled pattern and the number of its capturing groups. *)
Record Compiled := mkCompiled { re : Re; ngroups : nat }.

(** The state of a match: the index reached, the subject from that index
    on, and the captures (group [i] of the source is at position [i - 1]). *)
Record MState := mkState {
  endIndex : nat;
  rest : string;
  captures : list (option string)
}.

Definition backslash : ascii := ascii_of_nat 92.

Definition is_word (c : ascii) : bool :=
  let n := nat_of_ascii c in
  (((48 <=? n) && (n <=? 57)) || ((65 <=? n) && (n <=? 90))
   || ((97 <=? n) && (n <=? 122)) || (n =? 95))%nat.

Definition is_line_terminator (c : ascii) : bool :=
  let n := nat_of_ascii c in ((n =? 10) || (n =? 13))%nat.

Definition atom_matches (a : ClassAtom) (c : ascii) : bool :=
  match a with
  | CChar d => (c =? d)%char
  | CRange lo hi =>
      ((nat_of_ascii lo <=? nat_of_ascii c)
       && (nat_of_ascii c <=? nat_of_ascii hi))%nat
  | CDigit neg => xorb neg (is_digit c)
  | CWord neg => xorb neg (is_word c)
  | CSpace neg => xorb neg (is_whitespace c)
  end.

Definition class_matches (negated : bool) (atoms : list ClassAtom)
    (c : ascii) : bool :=
  xorb negated (existsb (fun a => atom_matches a c) atoms).

(** The capturing groups inside an expression. *)
Fixpoint group_ids (r : Re) : list nat :=
  match r with
  | RSeq a b | RAlt a b => group_ids a ++ group_ids b
  | RGroup i r' => i :: group_ids r'
  | RRepeat _ _ _ r' => group_ids r'
  | _ => []
  end.

Definition clear_captures (ids : list nat) (x : MState) : MState :=
  mkState (endIndex x) (rest x)
    (foldr (fun i caps => <[i := None]> caps) (captures x) ids).

(** Matchers are written in continuation-passing style, as in ECMA-262: the
    continuation is the rest of the pattern, and backtracking is the order
    in which the alternatives are tried. *)
Definition Continuation : Type := MState -> option MState.
Definition Matcher : Type := MState -> Continuation -> option MState.

(** One code unit accepted by [p]. *)
Definition one (p : ascii -> bool) (x : MState)
    (k : Continuation) : option MState :=
  match rest x with
  | String c r =>
      if p c then k (mkState (S (endIndex x)) r (captures x)) else None
  | EmptyString => None
  end.

(** RepeatMatcher for the matcher [m] of the repeated expression, whose
    capturing groups are [ids]. An iteration that matches the empty string
    once [min] is reached is refused, so the iterations number at most
    [min + length (rest x) + 1]: the [fuel] given by [rmatch] is never used
    up. *)
Fixpoint RepeatMatcher (m : Matcher) (ids : list nat) (c : Continuation)
    (fuel min : nat) (max : option nat) (greedy : bool) (x : MState)
    {struct fuel} : option MState :=
  match fuel with
  | O => None
  | S fuel' =>
      match max with
      | Some O => c x
      | _ =>
          let d (y : MState) :=
            if ((min =? 0) && (endIndex y =? endIndex x))%nat
            then None
            else RepeatMatcher m ids c fuel' (min - 1) (Nat.pred <$> max)
                   greedy y in
          let xr := clear_captures ids x in
          if negb (min =? 0)%nat then m xr d
          else if greedy then
            match m xr d with
            | Some z => Some z
            | None => c x
            end
          else
            match c x with
            | Some z => Some z
            | None => m xr d
            end
      end
  end.

(** The matcher of an expression. *)
Fixpoint rmatch (r : Re) (x : MState) (k : Continuation) {struct r}
  : option MState :=
  match r with
  | REmpty => k x
  | RChar c => one (fun d => (d =? c)%char) x k
  | RDot => one (fun d => negb (is_line_terminator d)) x k
  | RClass neg atoms => one (class_matches neg atoms) x k
  | RStart => if (endIndex x =? 0)%nat then k x else None
  | REnd => match rest x with EmptyString => k x | String _ _ => None end
  | RSeq a b => rmatch a x (fun y => rmatch b y k)
  | RAlt a b =>
      match rmatch a x k with
      | Some z => Some z
      | None => rmatch b x k
      end
  | RGroup i r' =>
      rmatch r' x
        (fun y =>
           let text :=
             String.substring 0 (endIndex y - endIndex x) (rest x) in
           k (mkState (endIndex y) (rest y)
                (<[i := Some text]> (captures y))))
  | RRepeat min max greedy r' =>
      RepeatMatcher (rmatch r') (group_ids r') k
        (min + String.length (rest x) + 1) min max greedy x
  end.

(** [exec] tries the start positions from left to right. *)
Fixpoint exec_from (c : Compiled) (i : nat) (s : string)
  : option MatchResult :=
  match rmatch (re c) (mkState i s (replicate (ngroups c) None)) Some with
  | Some y =>
      Some (mkMatch i (String.substring 0 (endIndex y - i) s)
              (captures y) None)
  | None =>
      match s with
      | EmptyString => None
      | String _ s' => exec_from c (S i) s'
      end
  end.

(** *** The parser *)

Definition is_alphanumeric (c : ascii) : bool :=
  let n := nat_of_ascii c in
  (((48 <=? n) && (n <=? 57)) || ((65 <=? n) && (n <=? 90))
   || ((97 <=? n) && (n <=? 122)))%nat.

(** The escape [\e], as a class atom. *)
Definition parse_escape (e : ascii) : option ClassAtom :=
  if (e =? "d")%char then Some (CDigit false)
  else if (e =? "D")%char then Some (CDigit true)
  else if (e =? "w")%char then Some (CWord false)
  else if (e =? "W")%char then Some (CWord true)
  else if (e =? "s")%char then Some (CSpace false)
  else if (e =? "S")%char then Some (CSpace true)
  else if (e =? "t")%char then Some (CChar (ascii_of_nat 9))
  else if (e =? "n")%char then Some (CChar (ascii_of_nat 10))
  else if (e =? "v")%char then Some (CChar (ascii_of_nat 11))
  else if (e =? "f")%char then Some (CChar (ascii_of_nat 12))
  else if (e =? "r")%char then Some (CChar (ascii_of_nat 13))
  else if is_alphanumeric e then None
  else Some (CChar e).

(** One atom of a character class at the head of [s]. *)
Definition parse_class_atom (s : string) : option (ClassAtom * string) :=
  match s with
  | EmptyString => None
  | String c s1 =>
      if (c =? backslash)%char then
        match s1 with
        | EmptyString => None
        | String e s2 =>
            if (e =? "b")%char then Some (CChar (ascii_of_nat 8), s2)
            else (fun a => (a, s2)) <$> parse_escape e
        end
      else Some (CChar c, s1)
  end.

(** The atoms of a class up to its closing bracket. *)
Fixpoint parse_class (fuel : nat) (s : string) (acc : list ClassAtom)
  : option (list ClassAtom * string) :=
  match fuel with
  | O => None
  | S f =>
      match s with
      | EmptyString => None
      | String c s1 =>
          if (c =? "]")%char then Some (rev acc, s1)
          else
            match parse_class_atom s with
            | None => None
            | Some (a, s2) =>
                match s2 with
                | String dash (String d s3 as s3') =>
                    if ((dash =? "-") && negb (d =? "]"))%char then
                      match parse_class_atom s3' with
                      | None => None
                      | Some (b, s4) =>
                          match a, b with
                          | CChar lo, CChar hi =>
                              if (nat_of_ascii lo <=? nat_of_ascii hi)%nat
                              then parse_class f s4 (CRange lo hi :: acc)
                              else None
                          | _, _ =>
                              parse_class f s4 (b :: CChar "-" :: a :: acc)
                          end
                      end
                    else parse_class f s2 (a :: acc)
                | _ => parse_class f s2 (a :: acc)
                end
            end
      end
  end.

(** The quantifier at the head of [s], applied to [r]. *)
Definition parse_quantifier (r : Re) (s : string) : Re * string :=
  let lazy (s' : string) : bool * string :=
    match s' with
    | String q s'' => if (q =? "?")%char then (false, s'') else (true, s')
    | EmptyString => (true, s')
    end in
  match s with
  | String q s' =>
      if (q =? "*")%char then
        let '(g, s'') := lazy s' in (RRepeat 0 None g r, s'')
      else if (q =? "+")%char then
        let '(g, s'') := lazy s' in (RRepeat 1 None g r, s'')
      else if (q =? "?")%char then
        let '(g, s'') := lazy s' in (RRepeat 0 (Some 1) g r, s'')
      else (r, s)
  | EmptyString => (r, s)
  end.

(** Recursive descent over Disjunction, Alternative and Term; [g] is the
    number of capturing groups opened so far. Every call that goes one
    level down has consumed a code unit or is one of the two steps from a
    disjunction to its first term, so [4 * length p + 4] levels suffice for
    a pattern [p]. *)
Fixpoint parse_disjunction (fuel : nat) (s : string) (g : nat)
  : option (Re * string * nat) :=
  match fuel with
  | O => None
  | S f =>
      match parse_alternative f s g with
      | None => None
      | Some (r1, s1, g1) =>
          match s1 with
          | String c s2 =>
              if (c =? "|")%char then
                match parse_disjunction f s2 g1 with
                | Some (r2, s3, g2) => Some (RAlt r1 r2, s3, g2)
                | None => None
                end
              else Some (r1, s1, g1)
          | EmptyString => Some (r1, s1, g1)
          end
      end
  end
with parse_alternative (fuel : nat) (s : string) (g : nat)
  : option (Re * string * nat) :=
  match fuel with
  | O => None
  | S f =>
      match s with
      | EmptyString => Some (REmpty, s, g)
      | String c _ =>
          if ((c =? "|") || (c =? ")"))%char then Some (REmpty, s, g)
          else
            match parse_term f s g with
            | None => None
            | Some (r1, s1, g1) =>
                match parse_alternative f s1 g1 with
                | Some (r2, s2, g2) => Some (RSeq r1 r2, s2, g2)
                | None => None
                end
            end
      end
  end
with parse_term (fuel : nat) (s : string) (g : nat)
  : option (Re * string * nat) :=
  match fuel with
  | O => None
  | S f =>
      match s with
      | EmptyString => None
      | String c s1 =>
          let quantified (r : Re) (s' : string) (g' : nat) :=
            let '(r', s'') := parse_quantifier r s' in Some (r', s'', g') in
          if (c =? "^")%char then Some (RStart, s1, g)
          else if (c =? "$")%char then Some (REnd, s1, g)
          else if ((c =? "*") || (c =? "+") || (c =? "?")
                   || (c =? "{") || (c =? "}"))%char then None
          else if (c =? ".")%char then quantified RDot s1 g
          else if (c =? backslash)%char then
            match s1 with
            | EmptyString => None
            | String e s2 =>
                match parse_escape e with
                | Some (CChar d) => quantified (RChar d) s2 g
                | Some a => quantified (RClass false [a]) s2 g
                | None => None
                end
            end
          else if (c =? "[")%char then
            let '(neg, s2) :=
              match s1 with
              | String n s2 => if (n =? "^")%char then (true, s2) else (false, s1)
              | EmptyString => (false, s1)
              end in
            match parse_class (S (String.length s2)) s2 [] with
            | Some (atoms, s3) => quantified (RClass neg atoms) s3 g
            | None => None
            end
          else if (c =? "(")%char then
            let '(capturing, s2) :=
              match s1 with
              | String q (String n s2) =>
                  if ((q =? "?") && (n =? ":"))%char then (false, s2)
                  else (true, s1)
              | _ => (true, s1)
              end in
            match s2 with
            | String q _ =>
                if (capturing && (q =? "?")%char)%bool then None
                else
                  match parse_disjunction f s2 (if capturing then S g else g) with
                  | Some (r, String close s3, g1) =>
                      if (close =? ")")%char
                      then quantified (if capturing then RGroup g r else r) s3 g1
                      else None
                  | _ => None
                  end
            | EmptyString => None
            end
          else quantified (RChar c) s1 g
      end
  end.

Definition SyntaxError : JsError := Error "Invalid regular expression".

(** [new RegExp(p)]. *)
Definition compile (p : string) : result Compiled :=
  match parse_disjunction (4 * String.length p + 4) p 0 with
  | Some (r, EmptyString, n) => Ok (mkCompiled r n)
  | _ => Throw SyntaxError
  end.

Definition exec (c : Compiled) (s : string) : option MatchResult :=
  exec_from c 0 s.

Definition engine : RegExp :=
  Build_RegExp Compiled compile exec.

End Backtracking.

(** ** convex/processing.ts

    The handlers of this module are Convex actions: they reach the tables
    through the mutations of [Jobs] and the outside world through [fetch],
    the Gemini client and the file storage. *)

Global Instance result_ret : MRet result := fun _ a => Ok a.
Global Instance result_bind : MBind result := fun _ _ f r =>
  match r with
  | Ok a => f a
  | Throw e => Throw e
  end.

(** What [fetch] resolves to. [arrayBuffer] is the body, already in base 64,
    or the rejection of [response.arrayBuffer()]. *)
Record Response := mkResponse {
  ok : bool;
  resp_status : N;
  statusText : string;
  content_type : option string;
  arrayBuffer : result string
}.

(** The part of a Gemini response the handler reads. *)
Record InlineData := mkInlineData { data : option string }.
Record Part := mkPart { inlineData : option InlineData }.
Record Content := mkContent { parts : option (list Part) }.
Record Candidate := mkCandidate {
  finishReason : option string;
  content : option Content
}.
Record UsageMetadata := mkUsage {
  promptTokenCount : option number;
  candidatesTokenCount : option number;
  totalTokenCount : option number
}.
Record GenerateContentResponse := mkGenResponse {
  usageMetadata : option UsageMetadata;
  candidates : option (list Candidate)
}.

(** The request sent to Gemini. *)
Inductive RequestPart :=
| TextPart (text : string)
| InlinePart (mimeType data : string).

Record GenerateContentRequest := mkGenRequest {
  model : string;
  contents : list RequestPart
}.

(** The world an action runs in: the answers of the network, of the Gemini
    client and of the file storage, the environment variable, the [URL]
    parser ([None] when the constructor throws), and the clock readings of the
    two [Date.now()] calls one run can reach. *)
Record Env := mkEnv {
  fetch : string -> result Response;
  GEMINI_API_KEY : option string;
  generateContent : GenerateContentRequest -> result GenerateContentResponse;
  storage_store : string -> result StorageId;
  storage_getUrl : StorageId -> result (option string);
  url_pathname : string -> option string;
  now_filename : N;
  now_mutation : N
}.

Definition nl : string := String (ascii_of_nat 10) EmptyString.

Definition lines (l : list string) : string :=
  foldr (fun a b => a +:+ nl +:+ b) EmptyString l.

Definition buildPrompt (config : Config) : string :=
  let brandingInstructions :=
    (if removeBranding config
     then nl +:+ "    - REMOVE BRANDING: Identify and scrub any existing logos, text, or watermarks from the original image."
     else "")
    +:+ (if addBrandingColors config
         then nl +:+ "    - BRANDING COLORS: Subtly adjust the color palette using "
              +:+ brandingColor config +:+ " as a key accent color."
         else "")
    +:+ (if addOwnLogo config
            && truthy (default "" (mjoin (ownLogoData config)))
         then nl +:+ "    - INSERT LOGO: Composite the provided logo into the scene realistically."
         else "") in
  lines [
    "";
    "    Generate a new version of this image located in "
      +:+ targetCountry config
      +:+ ", keeping the same context but adapting the visual elements.";
    "";
    "    CORE INSTRUCTIONS:";
    "    1. CONTEXT: Maintain the original scenario but transplanted to "
      +:+ targetCountry config +:+ ".";
    "    2. FLEXIBILITY: Change people, geometry, environment, and atmosphere to be authentic.";
    "       - PEOPLE: Update ethnicity, fashion, and appearance.";
    "       - GEOMETRY & ENVIRONMENT: Redesign architecture and background.";
    "       - ATMOSPHERE: Adapt lighting and mood.";
    "    ";
    "    BRANDING ADJUSTMENTS:" +:+ brandingInstructions;
    "";
    "    The output should be a distinct new variation that tells the same story in a different cultural setting.";
    "    ";
    "    Additional Context: " +:+ additionalContext config
  ] +:+ "  ".

(** What the [try] block hands to [setCompleted]. *)
Record Generated := mkGenerated {
  g_fileId : StorageId;
  g_fileName : string;
  g_url : string;
  g_promptTokens : number;
  g_candidateTokens : number;
  g_totalTokens : number
}.

Section Processing.

Context {engine : RegExp}.
Variable env : Env.

Definition fetchImageAsBase64 (url : string) : result (string * string) :=
  response ← fetch env url;
  if negb (ok response) then
    Throw (Error ("Failed to fetch image: " +:+ toString (resp_status response)
                  +:+ " " +:+ statusText response))
  else
    let contentType := or_else (content_type response) "image/jpeg" in
    base64 ← arrayBuffer response;
    Ok (base64, contentType).

Definition getFilenameFromUrl (url : string) : string :=
  match url_pathname env url with
  | Some pathname =>
      let pathParts := split "/" pathname in
      or_else (Some (List.last pathParts EmptyString)) "image"
  | None => "image"
  end.

(** The first part with inline data, as the [for] loop finds it. *)
Definition find_image (responseParts : list Part) : option string :=
  let has_data (p : Part) :=
    match inlineData p with
    | Some i => truthy (default "" (data i))
    | None => false
    end in
  p ← List.find has_data responseParts;
  i ← inlineData p;
  data i.

(** The [try] block of [processJob] up to the call of [setCompleted]. *)
Definition generate (job : Job) : result Generated :=
  '(imageBase64, mimeType) ← fetchImageAsBase64 (sourceUrl job);
  if negb (truthy (default "" (GEMINI_API_KEY env))) then
    Throw (Error "GEMINI_API_KEY environment variable not set")
  else
  let prompt := buildPrompt (config job) in
  let logo := default "" (mjoin (ownLogoData (config job))) in
  let requestParts :=
    [TextPart prompt; InlinePart mimeType imageBase64]
    ++ (if addOwnLogo (config job) && truthy logo
        then [InlinePart "image/png" logo] else []) in
  response ← generateContent env
    (mkGenRequest (or_else (modelVersion (config job)) "gemini-2.0-flash-exp")
       requestParts);
  let count (f : UsageMetadata -> option number) : number :=
    number_or (usageMetadata response ≫= f) zero in
  candidate ← match candidates response ≫= head with
              | Some c => Ok c
              | None => Throw (Error "No candidates returned from Gemini")
              end;
  let reason := default "" (finishReason candidate) in
  if truthy reason && negb (reason =? "STOP")%string then
    Throw (Error ("Generation stopped: " +:+ reason))
  else
  responseParts ← match content candidate ≫= parts with
                  | Some (p :: ps) => Ok (p :: ps)
                  | _ => Throw (Error "No content parts in response")
                  end;
  generatedBase64 ← match find_image responseParts with
                    | Some d => Ok d
                    | None => Throw (Error "No image data in response")
                    end;
  let originalFilename := getFilenameFromUrl (sourceUrl job) in
  let generatedFileName :=
    generateOutputFilename originalFilename
      (filenameFindPattern (config job))
      (filenameReplacePattern (config job)) (now_filename env) in
  fileId ← storage_store env generatedBase64;
  fileUrl ← storage_getUrl env fileId;
  if negb (truthy (default "" fileUrl)) then
    Throw (Error "Failed to get storage URL")
  else
    Ok (mkGenerated fileId generatedFileName (default "" fileUrl)
          (count promptTokenCount) (count candidatesTokenCount)
          (count totalTokenCount)).

(** The whole [try] block: the steps above, then [setCompleted]. *)
Definition try_block (jobId : JobId) (job : Job) (t : JobTable)
  : result unit * JobTable :=
  match generate job with
  | Throw e => (Throw e, t)
  | Ok g =>
      Jobs.setCompleted jobId (g_fileId g) (g_fileName g) (g_url g)
        (Some (g_promptTokens g)) (Some (g_candidateTokens g))
        (Some (g_totalTokens g)) (now_mutation env) t
  end.

(** The argument [error] of the call in the [catch] clause:
    [error.message || "Unknown error"], as far as it evaluates and as far as
    [setFailed] accepts it. *)
Definition failure_message (error : JsError) : result string :=
  m ← get_message error;
  v_string (message_or m "Unknown error").

Definition processJob (jobId : JobId) (t : JobTable)
  : result unit * JobTable :=
  match Jobs.getById jobId t with
  | None => (Throw (Error "Job not found"), t)
  | Some job =>
      match Jobs.setProcessing jobId t with
      | (Throw e, t1) => (Throw e, t1)
      | (Ok _, t1) =>
          match try_block jobId job t1 with
          | (Ok _, t2) => (Ok tt, t2)
          | (Throw error, t2) =>
              match failure_message error with
              | Ok msg => Jobs.setFailed jobId msg (now_mutation env) t2
              | Throw e => (Throw e, t2)
              end
          end
      end
  end.

End Processing.

(** [processBatch]: the jobs of the batch that were pending when the batch
    was read are processed one after the other, in the order of the query.
    Each run of [processJob] meets its own world, [envs jobId]. *)
Fixpoint processBatch_loop {engine : RegExp} (envs : JobId -> Env)
    (jobs : list JobDoc) (t : JobTable) : result unit * JobTable :=
  match jobs with
  | [] => (Ok tt, t)
  | d :: jobs' =>
      if Status_eqb (status d.2) pending then
        match processJob (envs d.1) d.1 t with
        | (Ok _, t') => processBatch_loop envs jobs' t'
        | (Throw e, t') => (Throw e, t')
        end
      else processBatch_loop envs jobs' t
  end.

Definition processBatch {engine : RegExp} (envs : JobId -> Env)
    (batchId : string) (t : JobTable) : result unit * JobTable :=
  processBatch_loop envs (Jobs.getByBatchId batchId t) t.

(** ** Properties of jobs and of runs, as predicates that compute *)

(** The thrown values whose message the [catch] clause of [processJob] can
    hand to [setFailed]: values other than [undefined] and [null] whose
    [message] reads as a string or as a falsy value. Every [Error] object is
    one. *)
Definition recordable (e : JsError) : bool :=
  match e with
  | Thrown (Reads (MsgString _)) | Thrown (Reads MsgFalsy) => true
  | _ => false
  end.

(** The message of a thrown value, when it is a string. *)
Definition message_text (e : JsError) : option string :=
  match e with
  | Thrown (Reads (MsgString s)) => Some s
  | _ => None
  end.

Definition isSome {A} (o : option A) : bool :=
  match o with Some _ => true | None => false end.

(** [jobs.filter((j) => j.status === "completed")]. *)
Definition completed_jobs (jobs : list JobDoc) : list JobDoc :=
  filter (fun d => status d.2 = completed) jobs.

(** A job that is not completed holds no [totalTokens]. *)
Definition tokens_follow_status (j : Job) : bool :=
  Status_eqb (status j) completed || negb (isSome (totalTokens j)).

(** The token counter of a job, when set, is a double. *)
Definition tokens_are_doubles (j : Job) : bool :=
  from_option is_double true (totalTokens j).

(** The invariant of a job record in both directions: [error] is set exactly
    when the job has failed, the storage id and the output file name exactly
    when it is completed, [completedAt] exactly when it is terminal. *)
Definition job_invariant (j : Job) : bool :=
  Bool.eqb (isSome (error j)) (Status_eqb (status j) failed)
  && Bool.eqb (isSome (generatedFileId j)) (Status_eqb (status j) completed)
  && Bool.eqb (isSome (generatedFileName j)) (Status_eqb (status j) completed)
  && Bool.eqb (isSome (completedAt j))
       (Status_eqb (status j) completed || Status_eqb (status j) failed).





(** An edge of the state machine. *)
Definition transition_ok (a b : Status) : bool :=
  match a, b with
  | pending, processing => true
  | processing, completed => true
  | processing, failed => true
  | _, _ => false
  end.

(** A call made in the order of the state machine: a creation at any time,
    a mark-processing on a pending job, a mark-completed or a mark-failed on
    a job in processing. *)
Definition in_order (o : JobOp) (t : JobTable) : bool :=
  let status_is (i : JobId) (s : Status) :=
    match t !! i with
    | Some j => Status_eqb (status j) s
    | None => false
    end in
  match o with
  | OpCreate _ _ _ _ | OpCreateJob _ _ _ _ _ => true
  | OpSetProcessing i | OpSetJobProcessing i => status_is i pending
  | OpSetCompleted i _ _ _ _ _ _ | OpSetJobCompleted i _ _ _ _ _
  | OpSetJobCompletedWithFile i _ _ _ _ _ _ => status_is i processing
  | OpSetFailed i _ | OpSetJobFailed i _ => status_is i processing
  end.




(** The [totalTokens] a mutation is called with, if any, is a double. *)
Definition passes_double (o : JobOp) : bool :=
  match o with
  | OpSetCompleted _ _ _ _ _ _ tot | OpSetJobCompleted _ _ _ _ _ tot
  | OpSetJobCompletedWithFile _ _ _ _ _ tot _ => from_option is_double true tot
  | _ => true
  end.

(** The job a status mutation patches and the status it writes. *)
Definition target (o : JobOp) : option (JobId * Status) :=
  match o with
  | OpCreate _ _ _ _ | OpCreateJob _ _ _ _ _ => None
  | OpSetProcessing i | OpSetJobProcessing i => Some (i, processing)
  | OpSetCompleted i _ _ _ _ _ _ | OpSetJobCompleted i _ _ _ _ _
  | OpSetJobCompletedWithFile i _ _ _ _ _ _ => Some (i, completed)
  | OpSetFailed i _ | OpSetJobFailed i _ => Some (i, failed)
  end.

(** Every call of a run is made in the order of the state machine. *)
Fixpoint run_in_order (ops : list (JobOp * N)) (t : JobTable) : bool :=
  match ops with
  | [] => true
  | o :: ops' => in_order o.1 t && run_in_order ops' (apply_op o.1 o.2 t)
  end.

(** The status of job [id] in the table before a run and after each of its
    calls. *)
Fixpoint statuses (id : JobId) (ops : list (JobOp * N)) (t : JobTable)
  : list (option Status) :=
  (status <$> t !! id)
  :: match ops with
     | [] => []
     | o :: ops' => statuses id ops' (apply_op o.1 o.2 t)
     end.

(** What an observer of job [id] sees: its successive status values, a value
    being seen once for as long as it stays. *)
Fixpoint changes (prev : option Status) (l : list (option Status))
  : list Status :=
  match l with
  | [] => []
  | None :: l' => changes prev l'
  | Some s :: l' =>
      if bool_decide (prev = Some s) then changes prev l'
      else s :: changes (Some s) l'
  end.

Definition observed (id : JobId) (ops : list (JobOp * N)) (t : JobTable)
  : list Status :=
  changes None (statuses id ops t).

(** [l] is a subsequence of [m]. *)
Fixpoint is_subsequence (l m : list Status) : bool :=
  match l, m with
  | [], _ => true
  | _ :: _, [] => false
  | a :: l', b :: m' =>
      if Status_eqb a b then is_subsequence l' m' else is_subsequence l m'
  end.

Definition lifecycle_ok (l : list Status) : bool :=
  is_subsequence l [pending; processing; completed]
  || is_subsequence l [pending; processing; failed].

(** Every step of [l] is an edge of the state machine. *)
Fixpoint path_ok (l : list Status) : bool :=
  match l with
  | a :: (b :: _) as l' => transition_ok a b && path_ok l'
  | _ => true
  end.

(** A configuration for the examples. *)
Definition sample_config : Config :=
  {| targetCountry := "Japan"; additionalContext := "";
     removeBranding := false; addBrandingColors := false;
     brandingColor := "#000000"; addOwnLogo := false; ownLogoData := None;
     filenameFindPattern := "^.*-([^-.]+)\..*$";
     filenameReplacePattern := "neonLED_$1_TIMESTAMP.png";
     modelVersion := None; aspectRatio := None; imageSize := None |}.

(** ** Example runs *)

(** A job that is completed with 7 tokens and then marked failed. *)
Definition failed_with_tokens : list (JobOp * N) :=
  [(OpCreateJob "https://example.com/a-red.jpg" "a-red.jpg" sample_config
      None (Some "batch_1"), 1%N);
   (OpSetJobCompleted 0 "https://files/1" "out.png" None None (Some (of_Z 7)), 2%N);
   (OpSetJobFailed 0 "boom", 3%N)].

(** A batch of three made in order by both stores: two jobs are completed,
    with 2^53 tokens and with 1 token, and one has failed. *)
Definition big_counters : list (JobOp * N) :=
  [(OpCreate "https://example.com/a-red.jpg" sample_config None
      (Some "batch_1"), 1%N);
   (OpCreateJob "https://example.com/b-blue.jpg" "b-blue.jpg" sample_config
      None (Some "batch_1"), 2%N);
   (OpCreate "https://example.com/c-pink.jpg" sample_config None
      (Some "batch_1"), 3%N);
   (OpSetProcessing 0, 4%N);
   (OpSetCompleted 0 "file_1" "neonLED_red_5.png" "https://files/1"
      None None (Some (of_Z (2 ^ 53))), 6%N);
   (OpSetJobProcessing 1, 7%N);
   (OpSetJobCompleted 1 "https://files/2" "neonLED_blue_8.png"
      None None (Some (of_Z 1)), 9%N);
   (OpSetProcessing 2, 10%N);
   (OpSetFailed 2 "Generation stopped: SAFETY", 11%N)].




(** A job marked completed while pending and then marked processing. *)
Definition completed_then_processing : list (JobOp * N) :=
  [(OpCreateJob "https://example.com/a-red.jpg" "a-red.jpg" sample_config
      None None, 1%N);
   (OpSetJobCompleted 0 "https://files/1" "out.png" None None None, 2%N);
   (OpSetJobProcessing 0, 3%N)].

(** The orchestrator's order on one job, ending in success or in failure. *)
Definition lifecycle_completed : list (JobOp * N) :=
  [(OpCreate "https://example.com/a-red.jpg" sample_config None None, 1%N);
   (OpSetProcessing 0, 2%N);
   (OpSetCompleted 0 "file_1" "neonLED_red_3.png" "https://files/1"
      (Some (of_Z 10)) (Some (of_Z 20)) (Some (of_Z 30)), 4%N)].

Definition lifecycle_failed : list (JobOp * N) :=
  [(OpCreate "https://example.com/a-red.jpg" sample_config None None, 1%N);
   (OpSetProcessing 0, 2%N);
   (OpSetFailed 0 "Generation stopped: SAFETY", 3%N)].

(** Two jobs without a batch, one pending and one completed. *)
Definition two_jobs : list (JobOp * N) :=
  [(OpCreate "https://example.com/a-red.jpg" sample_config None None, 1%N);
   (OpCreate "https://example.com/b-blue.jpg" sample_config None None, 2%N);
   (OpSetProcessing 1, 3%N);
   (OpSetCompleted 1 "file_1" "neonLED_blue_4.png" "https://files/1"
      (Some (of_Z 10)) (Some (of_Z 20)) (Some (of_Z 30)), 5%N)].

(** A batch of two jobs, one pending and one failed. *)
Definition batch_of_two : list (JobOp * N) :=
  [(OpCreate "https://example.com/a-red.jpg" sample_config None
      (Some "batch_1"), 1%N);
   (OpCreate "https://example.com/b-blue.jpg" sample_config None
      (Some "batch_1"), 2%N);
   (OpSetProcessing 1, 3%N);
   (OpSetFailed 1 "Generation stopped: SAFETY", 4%N)].

(** A configuration that names a model, and the store holding one preset
    made from it. *)
Definition pro_config : Config :=
  {| targetCountry := "Brazil"; additionalContext := "Rio";
     removeBranding := true; addBrandingColors := false;
     brandingColor := "#00FF00"; addOwnLogo := true;
     ownLogoData := Some (Some "iVBORw0KGgo=");
     filenameFindPattern := "^(.*)\..*$";
     filenameReplacePattern := "brazil_$1_TIMESTAMP.png";
     modelVersion := Some "gemini-3-pro-image-preview";
     aspectRatio := Some "16:9"; imageSize := Some "2K" |}.

Definition one_preset : PresetTable :=
  (PublicPresets.createPreset "X" pro_config 1%N ∅).2.

(** ** The filename deriver, in the words of its description *)

(** Every code unit of [s] is a decimal digit. *)
Fixpoint all_digits (s : string) : bool :=
  match s with
  | EmptyString => true
  | String c s' => is_digit c && all_digits s'
  end.

(** Step (c): a name that ends in an image extension is kept, another name
    gets [.png]. *)
Definition with_png (name : string) : string :=
  if hasExtension name then name else name +:+ ".png".

Section TwoPass.

Context {engine : RegExp}.

(** Step (b): first the token [TIMESTAMP] of the template becomes the
    clock reading, then the capture groups of the match are substituted in
    the resulting template. *)
Definition two_pass (workingName : string) (re : regex)
    (replaceTemplate : string) (now : N) : string :=
  let withTimestamp := replace_TIMESTAMP (toString now) 0 replaceTemplate in
  replace workingName re withTimestamp.

(** The two passes in the other order, for comparison. *)
Definition groups_first (workingName : string) (re : regex)
    (replaceTemplate : string) (now : N) : string :=
  replace_TIMESTAMP (toString now) 0 (replace workingName re replaceTemplate).

End TwoPass.

(** The find pattern of the examples, compiled by the backtracking matcher:
    [^.*-([^-.]+)\..*$]. *)
Definition last_word_pattern : Backtracking.Compiled :=
  Backtracking.mkCompiled
    (Backtracking.RSeq Backtracking.RStart
       (Backtracking.RSeq (Backtracking.RRepeat 0 None true Backtracking.RDot)
          (Backtracking.RSeq (Backtracking.RChar "-")
             (Backtracking.RSeq
                (Backtracking.RGroup 0
                   (Backtracking.RSeq
                      (Backtracking.RRepeat 1 None true
                         (Backtracking.RClass true
                            [Backtracking.CChar "-"; Backtracking.CChar "."]))
                      Backtracking.REmpty))
                (Backtracking.RSeq (Backtracking.RChar ".")
                   (Backtracking.RSeq
                      (Backtracking.RRepeat 0 None true Backtracking.RDot)
                      (Backtracking.RSeq Backtracking.REnd
                         Backtracking.REmpty)))))))
    1.

(** ** Example worlds *)

(** A world whose network is down; nothing else is reached. *)
Definition offline : Env :=
  {| fetch := fun _ => Throw (Error "fetch failed");
     GEMINI_API_KEY := Some "key";
     generateContent := fun _ => Throw (Error "unreachable");
     storage_store := fun _ => Throw (Error "unreachable");
     storage_getUrl := fun _ => Throw (Error "unreachable");
     url_pathname := fun _ => None;
     now_filename := 10%N;
     now_mutation := 11%N |}.

(** A world whose [fetch] rejects with [undefined]. *)
Definition rejects_undefined : Env :=
  {| fetch := fun _ => Throw ThrownUndefined;
     GEMINI_API_KEY := Some "key";
     generateContent := fun _ => Throw (Error "unreachable");
     storage_store := fun _ => Throw (Error "unreachable");
     storage_getUrl := fun _ => Throw (Error "unreachable");
     url_pathname := fun _ => None;
     now_filename := 10%N;
     now_mutation := 11%N |}.


(** A world in which Gemini stops the generation for safety. *)
Definition blocked : Env :=
  {| fetch := fun _ =>
       Ok (mkResponse true 200%N "OK" (Some "image/jpeg") (Ok "/9j/4AAQ"));
     GEMINI_API_KEY := Some "key";
     generateContent := fun _ =>
       Ok (mkGenResponse None
             (Some [mkCandidate (Some "SAFETY") None]));
     storage_store := fun _ => Ok "file_1";
     storage_getUrl := fun _ => Ok (Some "https://files/1");
     url_pathname := fun _ => Some "/a-red.jpg";
     now_filename := 10%N;
     now_mutation := 11%N |}.

(** A world in which every step succeeds. *)
Definition healthy : Env :=
  {| fetch := fun _ =>
       Ok (mkResponse true 200%N "OK" (Some "image/jpeg") (Ok "/9j/4AAQ"));
     GEMINI_API_KEY := Some "key";
     generateContent := fun _ =>
       Ok (mkGenResponse (Some (mkUsage (Some (of_Z 10)) (Some (of_Z 20)) (Some (of_Z 30))))
             (Some [mkCandidate (Some "STOP")
                      (Some (mkContent
                               (Some [mkPart None;
                                      mkPart (Some (mkInlineData
                                                      (Some "iVBORw0KGgo=")))])))]));
     storage_store := fun _ => Ok "file_1";
     storage_getUrl := fun _ => Ok (Some "https://files/1");
     url_pathname := fun _ => Some "/a-red.jpg";
     now_filename := 10%N;
     now_mutation := 11%N |}.

(** A batch of three pending jobs, and the worlds in which the model stops
    the second one. *)
Definition three_pending : JobTable :=
  run [(OpCreate "https://example.com/a-red.jpg" sample_config None
          (Some "batch_3"), 1%N);
       (OpCreate "https://example.com/b-blue.jpg" sample_config None
          (Some "batch_3"), 2%N);
       (OpCreate "https://example.com/c-green.jpg" sample_config None
          (Some "batch_3"), 3%N)] [].

Definition second_blocked (jobId : JobId) : Env :=
  if (jobId =? 1)%nat then blocked else healthy.

(** The table with one pending job. *)
Definition one_pending : JobTable :=
  (Jobs.create "https://example.com/a-red.jpg" sample_config None None 1%N []).2.

(** ** Proof automation *)

(** Unfolds a call of [apply_op] down to [db_insert] and [db_patch]. *)
Ltac unfold_mutations :=
  cbv [apply_op Jobs.create Jobs.setProcessing Jobs.setCompleted
       Jobs.setFailed PublicJobs.createJob PublicJobs.setJobProcessing
       PublicJobs.setJobCompleted PublicJobs.setJobFailed
       PublicJobs.setJobCompletedWithFile].

(** * The rest of the job store *)

(** [getRecentJobsSummary] of convex/publicJobs.ts: the counters over the
    hundred newest jobs ([.take(100)]) and the first [limit] of them. *)
Definition getRecentJobsSummary (limit : option Z) (t : JobTable)
  : BatchSummary * list JobDoc :=
  let limit := default 10%Z limit in
  let allJobs := take 100 (by_createdAt_desc t) in
  let recentJobs := js_slice allJobs 0 limit in
  (summarize allJobs, recentJobs).

(** The result of a mutation of either module, next to the table it leaves. *)
Definition call_op (o : JobOp) (now : N) (t : JobTable)
  : result unit * JobTable :=
  match o with
  | OpCreate u c p b => (Ok tt, (Jobs.create u c p b now t).2)
  | OpSetProcessing i => Jobs.setProcessing i t
  | OpSetCompleted i f n u p c tot => Jobs.setCompleted i f n u p c tot now t
  | OpSetFailed i e => Jobs.setFailed i e now t
  | OpCreateJob u n c p b => (Ok tt, (PublicJobs.createJob u n c p b now t).2)
  | OpSetJobProcessing i => PublicJobs.setJobProcessing i t
  | OpSetJobCompleted i u n p c tot =>
      PublicJobs.setJobCompleted i u n p c tot now t
  | OpSetJobFailed i e => PublicJobs.setJobFailed i e now t
  | OpSetJobCompletedWithFile i s n p c tot u =>
      PublicJobs.setJobCompletedWithFile i s n p c tot u now t
  end.

(** The fields of a job that are written once, at creation. *)
Definition same_snapshot (j j' : Job) : Prop :=
  sourceUrl j' = sourceUrl j /\ config j' = config j
  /\ presetName j' = presetName j /\ batchId j' = batchId j
  /\ createdAt j' = createdAt j.

(** Newest first. *)
Definition newer_or_equal (a b : JobDoc) : Prop :=
  (createdAt b.2 <= createdAt a.2)%N.

(** * Runs of the preset store *)

(** One call of a preset mutation. The two [update] handlers and the two
    [delete] handlers have the same body; the two [create] handlers differ
    in the check of the name. *)
Inductive PresetOp :=
| OpCreatePreset (name : string) (config : Config)
| OpPresetsCreate (name : string) (config : Config)
| OpUpdatePreset (name : string) (config : Config)
| OpDeletePreset (name : string).

Definition apply_preset_op (o : PresetOp) (now : N) (t : PresetTable)
  : PresetTable :=
  match o with
  | OpCreatePreset n c => (PublicPresets.createPreset n c now t).2
  | OpPresetsCreate n c => (Presets.create n c now t).2
  | OpUpdatePreset n c => (PublicPresets.updatePreset n c now t).2
  | OpDeletePreset n => (PublicPresets.deletePreset n t).2
  end.

Definition run_presets (ops : list (PresetOp * N)) (t : PresetTable)
  : PresetTable :=
  fold_left (fun t o => apply_preset_op o.1 o.2 t) ops t.

(** No two documents of the table have the same name. *)
Definition names_unique (t : PresetTable) : Prop :=
  forall i j p q,
    t !! i = Some p -> t !! j = Some q -> preset_name p = preset_name q ->
    i = j.

(** A run that creates, renames nothing, updates and deletes. *)
Definition preset_session : list (PresetOp * N) :=
  [(OpCreatePreset "X" pro_config, 1%N);
   (OpPresetsCreate "Y" sample_config, 2%N);
   (OpCreatePreset "X" sample_config, 3%N);
   (OpUpdatePreset "Y" pro_config, 4%N);
   (OpDeletePreset "X", 5%N);
   (OpCreatePreset "X" sample_config, 6%N)].

(** * Predicates on names *)

(** Every code unit of [s] satisfies [p]. *)
Fixpoint string_forall (p : ascii -> bool) (s : string) : bool :=
  match s with
  | EmptyString => true
  | String c s' => p c && string_forall p s'
  end.

(** [c] does not occur in [s]. *)
Definition free_of (c : ascii) (s : string) : bool :=
  string_forall (fun d => negb (d =? c)%char) s.


(** * Outcomes of the orchestrator *)

(** The [catch] clause of [processJob] can record what the [try] block
    throws in the world [env], if it throws. *)
Definition settles {engine : RegExp} (env : Env) (job : Job) : bool :=
  match generate env job with
  | Ok _ => true
  | Throw e => recordable e
  end.

(** The status [processJob] leaves on the job it is given. *)
Definition outcome {engine : RegExp} (env : Env) (job : Job) : Status :=
  match generate env job with
  | Ok _ => completed
  | Throw e => if recordable e then failed else processing
  end.

(** The worlds of a batch whose second job meets a [fetch] that rejects with
    [undefined]. *)
Definition second_rejects (jobId : JobId) : Env :=
  if (jobId =? 1)%nat then rejects_undefined else healthy.

(** The second job of [three_pending]. *)
Definition second_of_three : Job :=
  {| batchId := Some "batch_3";
     sourceUrl := "https://example.com/b-blue.jpg";
     presetName := None; config := sample_config; status := pending;
     error := None; generatedFileId := None; generatedFileName := None;
     generatedUrl := None; generatedUrlWithExtension := None;
     promptTokens := None; candidateTokens := None; totalTokens := None;
     createdAt := 2%N; completedAt := None |}.
(** * Properties *)

(** ** The addition of doubles *)

Lemma digits2_log2 (p : positive) :
  Zpos (digits2_pos p) = (Z.log2 (Zpos p) + 1)%Z.
Proof.
  assert (H : digits2_pos p = Pos.size p) by (induction p; simpl; congruence).
  rewrite H. destruct p; simpl; lia.
Qed.

Lemma shr_m_shr_1 (r : shr_record) :
  (0 <= shr_m r)%Z -> shr_m (shr_1 r) = Z.div2 (shr_m r).
Proof.
  destruct r as [[|[p|p|]|p] a b]; simpl; intros H; try reflexivity; lia.
Qed.

Lemma shr_m_iter (p : positive) : forall r : shr_record,
  (0 <= shr_m r)%Z ->
  shr_m (SpecFloat.iter_pos shr_1 p r) = Z.shiftr (shr_m r) (Zpos p).
Proof.
  induction p as [p IH|p IH|]; intros r Hr; simpl SpecFloat.iter_pos.
  - assert (H1 : (0 <= shr_m (shr_1 r))%Z).
    { rewrite shr_m_shr_1 by done. rewrite Z.div2_nonneg. done. }
    assert (H2 : (0 <= shr_m (SpecFloat.iter_pos shr_1 p (shr_1 r)))%Z).
    { rewrite IH by done. by apply Z.shiftr_nonneg. }
    rewrite IH by done. rewrite IH by done. rewrite shr_m_shr_1 by done.
    rewrite Z.div2_spec. rewrite !Z.shiftr_shiftr by lia.
    f_equal. lia.
  - assert (H2 : (0 <= shr_m (SpecFloat.iter_pos shr_1 p r))%Z).
    { rewrite IH by done. by apply Z.shiftr_nonneg. }
    rewrite IH by done. rewrite IH by done.
    rewrite !Z.shiftr_shiftr by lia. f_equal. lia.
  - rewrite shr_m_shr_1 by done. by rewrite Z.div2_spec.
Qed.

Lemma shr_m_of_loc (m : Z) (l : location) : shr_m (shr_record_of_loc m l) = m.
Proof. by destruct l as [|[]]. Qed.

(** Shifting a positive mantissa to its format keeps it positive, when the
    exponent is not below the least one. *)
Lemma shr_fexp_positive (p : positive) (e : Z) (l : location) :
  (emin prec emax <= e)%Z ->
  exists q, shr_m (shr_fexp prec emax (Zpos p) e l).1 = Zpos q
            /\ (emin prec emax <= (shr_fexp prec emax (Zpos p) e l).2)%Z.
Proof.
  intros He. unfold shr_fexp, shr.
  destruct (fexp prec emax (Zdigits2 (Z.pos p) + e) - e)%Z as [|n|n] eqn:En;
    simpl; rewrite ?shr_m_of_loc; try (exists p; split; [done|lia]).
  assert (Hn : (Zpos n <= Z.log2 (Zpos p))%Z).
  { revert En. unfold fexp, Zdigits2. rewrite digits2_log2.
    unfold prec. unfold prec in He. lia. }
  rewrite shr_m_iter by (rewrite shr_m_of_loc; lia).
  rewrite shr_m_of_loc.
  assert (0 < Z.shiftr (Zpos p) (Zpos n))%Z.
  { pose proof (Z.shiftr_nonneg (Zpos p) (Zpos n)) as [_ H0].
    specialize (H0 ltac:(lia)).
    destruct (Z.eq_dec (Z.shiftr (Zpos p) (Zpos n)) 0%Z) as [E|E]; [|lia].
    apply Z.shiftr_eq_0_iff in E. lia. }
  destruct (Z.shiftr (Zpos p) (Zpos n)) as [|q|q]; try lia.
  exists q. split; [done|lia].
Qed.

Lemma round_nearest_even_positive (q : positive) (l : location) :
  exists q', round_nearest_even (Zpos q) l = Zpos q'.
Proof.
  destruct l as [|[]]; simpl; try by eexists.
  destruct q; simpl; by eexists.
Qed.

(** Rounding a positive mantissa gives a finite number that is not zero, or
    an infinity. *)
Lemma binary_round_aux_positive (s : bool) (p : positive) (e : Z) (l : location) :
  (emin prec emax <= e)%Z ->
  exponent_ok (binary_round_aux prec emax s (Zpos p) e l) = true
  /\ not_negative_zero (binary_round_aux prec emax s (Zpos p) e l) = true.
Proof.
  intros He. unfold binary_round_aux.
  destruct (shr_fexp_positive p e l He) as (q & Hq & He').
  destruct (shr_fexp prec emax (Zpos p) e l) as [mrs' e'].
  simpl in Hq, He'. rewrite Hq.
  destruct (round_nearest_even_positive q (loc_of_shr_record mrs')) as [q' ->].
  destruct (shr_fexp_positive q' e' loc_Exact He') as (q2 & Hq2 & He2).
  destruct (shr_fexp prec emax (Zpos q') e' loc_Exact) as [mrs2 e2].
  simpl in Hq2, He2. rewrite Hq2.
  destruct (e2 <=? emax - prec)%Z; simpl; [|done].
  split; [|done]. by apply Z.leb_le.
Qed.

Lemma binary_round_positive (s : bool) (p : positive) (e : Z) :
  (emin prec emax <= e)%Z ->
  exponent_ok (binary_round prec emax s p e) = true
  /\ not_negative_zero (binary_round prec emax s p e) = true.
Proof.
  intros He. unfold binary_round.
  destruct (shl_align p e (fexp prec emax (Zpos (digits2_pos p) + e)))
    as [mz ez] eqn:E.
  apply binary_round_aux_positive.
  revert E. unfold shl_align, fexp.
  destruct (_ - e)%Z eqn:Ed; intros [= <- <-]; lia.
Qed.

Lemma is_double_exponent_ok (x : number) :
  is_double x = true -> exponent_ok x = true.
Proof.
  destruct x as [| | |s m e]; try done. simpl.
  unfold bounded, canonical_mantissa, fexp.
  intros [H _]%andb_prop. apply Z.eqb_eq in H. apply Z.leb_le. lia.
Qed.

(** A sum is [-0] only when both numbers are. *)
Lemma number_add_ok (x y : number) :
  exponent_ok x = true -> exponent_ok y = true ->
  not_negative_zero x = true ->
  exponent_ok (number_add x y) = true
  /\ not_negative_zero (number_add x y) = true.
Proof.
  intros Hx Hy Hn. unfold number_add.
  destruct x as [[]|[]| |sx mx ex], y as [[]|[]| |sy my ey]; try done.
  simpl in Hx, Hy. apply Z.leb_le in Hx, Hy.
  unfold SFadd, binary_normalize.
  destruct (_ + _)%Z; [done| |]; apply binary_round_positive; lia.
Qed.

(** [x + 0] is [x], but for [-0]. *)
Lemma number_add_zero (x : number) :
  not_negative_zero x = true -> number_add x zero = x.
Proof. by destruct x as [[]|[]| |]. Qed.

(** ** Batch summary *)

(** The reduction skips the jobs that are not completed, when these hold no
    counter: each of them adds [0] to a sum that is not [-0]. *)
Lemma reduce_completed_from (jobs : list JobDoc) : forall acc : number,
  exponent_ok acc = true -> not_negative_zero acc = true ->
  Forall (fun d => tokens_follow_status d.2 = true) jobs ->
  Forall (fun d => tokens_are_doubles d.2 = true) jobs ->
  fold_left (fun sum d => number_add sum (default zero (totalTokens d.2)))
    jobs acc
  = fold_left (fun sum d => number_add sum (default zero (totalTokens d.2)))
      (completed_jobs jobs) acc.
Proof.
  induction jobs as [|d jobs IH]; intros acc He Hz Hs Hd; [reflexivity|].
  apply Forall_cons in Hs as [Hs1 Hs]. apply Forall_cons in Hd as [Hd1 Hd].
  unfold completed_jobs. rewrite filter_cons. simpl.
  unfold tokens_follow_status, Status_eqb in Hs1.
  unfold tokens_are_doubles in Hd1.
  destruct (decide (status d.2 = completed)) as [Hc|Hc]; simpl.
  - assert (Hy : exponent_ok (default zero (totalTokens d.2)) = true).
    { destruct (totalTokens d.2); simpl in *; [|done].
      by apply is_double_exponent_ok. }
    destruct (number_add_ok acc _ He Hy Hz) as [He' Hz'].
    by apply IH.
  - rewrite bool_decide_eq_false_2 in Hs1 by done. simpl in Hs1.
    destruct (totalTokens d.2); [done|]. simpl.
    rewrite number_add_zero by done. by apply IH.
Qed.

Lemma elem_of_docs (d : JobDoc) (t : JobTable) :
  d ∈ docs t -> t !! d.1 = Some d.2.
Proof.
  unfold docs. intros (i & j & -> & E)%elem_of_lookup_imap. exact E.
Qed.

Lemma Forall_by_batchId (P : Job -> Prop) (b : string) (t : JobTable) :
  Forall P t -> Forall (fun d => P d.2) (by_batchId b t).
Proof.
  intros Ht. apply Forall_forall. intros d Hd.
  unfold by_batchId in Hd. apply list_elem_of_filter in Hd as [_ Hd].
  apply elem_of_docs in Hd.
  exact (Forall_lookup_1 _ _ _ _ Ht Hd).
Qed.

(** ** The job records a run can reach *)

Lemma run_cons (o : JobOp * N) (ops : list (JobOp * N)) (t : JobTable) :
  run (o :: ops) t = run ops (apply_op o.1 o.2 t).
Proof. reflexivity. Qed.

Lemma db_patch_Forall (P : Job -> Prop) (id : JobId) (f : Job -> Job)
    (t : JobTable) :
  Forall P t ->
  (forall j, t !! id = Some j -> P j -> P (f j)) ->
  Forall P (db_patch id f t).2.
Proof.
  intros Ht Hf. unfold db_patch.
  destruct (t !! id) as [j|] eqn:E; simpl; [|exact Ht].
  apply Forall_insert; [exact Ht|].
  apply Hf; [reflexivity|]. exact (Forall_lookup_1 _ _ _ _ Ht E).
Qed.

Lemma db_insert_Forall (P : Job -> Prop) (j : Job) (t : JobTable) :
  Forall P t -> P j -> Forall P (db_insert j t).2.
Proof.
  intros Ht Hj. unfold db_insert; simpl.
  apply Forall_app; split; [exact Ht|]. by apply Forall_singleton.
Qed.

(** A property of the jobs that each call of a kind keeps, when made in
    order, holds after every run of such calls made in order. *)
Lemma run_in_order_keeps (P : Job -> Prop) (kind : JobOp -> bool) :
  (forall o now t, kind o = true -> in_order o t = true ->
                   Forall P t -> Forall P (apply_op o now t)) ->
  forall (ops : list (JobOp * N)) (t : JobTable),
    forallb (fun o => kind o.1) ops = true ->
    run_in_order ops t = true ->
    Forall P t -> Forall P (run ops t).
Proof.
  intros Hstep ops. induction ops as [|o ops IH]; intros t Hk Hord Ht;
    [exact Ht|].
  simpl in Hk, Hord.
  apply andb_prop in Hk as [Ho Hk]. apply andb_prop in Hord as [Hi Hord].
  rewrite run_cons. apply IH; [exact Hk|exact Hord|].
  by apply Hstep.
Qed.

Lemma forallb_any {A} (l : list A) : forallb (fun _ => true) l = true.
Proof. by induction l. Qed.

(** In order, only the marks of completion write [totalTokens]. *)
Lemma apply_op_tokens_follow_status (o : JobOp) (now : N) (t : JobTable) :
  in_order o t = true ->
  Forall (fun j => tokens_follow_status j = true) t ->
  Forall (fun j => tokens_follow_status j = true) (apply_op o now t).
Proof.
  intros Hord Ht.
  destruct o; simpl in *;
    first [ apply db_insert_Forall; [exact Ht|reflexivity]
          | apply db_patch_Forall; [exact Ht|]; intros j E Hj;
            rewrite E in Hord ].
  all: try reflexivity.
  all: destruct j as [? ? ? ? [] ? ? ? ? ? ? ? [] ? ?]; done.
Qed.

Lemma apply_op_tokens_are_doubles (o : JobOp) (now : N) (t : JobTable) :
  passes_double o = true ->
  Forall (fun j => tokens_are_doubles j = true) t ->
  Forall (fun j => tokens_are_doubles j = true) (apply_op o now t).
Proof.
  intros Hd Ht.
  destruct o; simpl in *;
    first [ apply db_insert_Forall; [exact Ht|reflexivity]
          | apply db_patch_Forall; [exact Ht|]; intros j E Hj ];
    done.
Qed.

(** C1 (as amended). After every run of the mutations of both stores made in
    the order of the state machine, a job that is not completed holds no
    [totalTokens], and the [totalTokens] of a batch summary is the sum, in
    the addition of doubles and in the order of the batch, of
    [totalTokens ?? 0] over the completed jobs of the batch alone. Both
    [getBatchSummary] handlers agree on it. *)
Theorem C1_totalTokens_sums_completed_jobs (ops : list (JobOp * N))
    (b : string) :
  run_in_order ops [] = true ->
  forallb (fun o => passes_double o.1) ops = true ->
  Forall (fun d => status d.2 <> completed -> totalTokens d.2 = None)
    (by_batchId b (run ops []))
  /\ sum_totalTokens (PublicJobs.getBatchSummary b (run ops [])).2
     = reduce_totalTokens (completed_jobs (by_batchId b (run ops [])))
  /\ sum_totalTokens (Jobs.getBatchSummary b (run ops []))
     = reduce_totalTokens (completed_jobs (by_batchId b (run ops []))).
Proof.
  intros Hord Hd.
  assert (Hs : Forall (fun j => tokens_follow_status j = true) (run ops [])).
  { apply (run_in_order_keeps _ (fun _ => true)); try done.
    - intros o now t _. apply apply_op_tokens_follow_status.
    - apply forallb_any. }
  assert (Hn : Forall (fun j => tokens_are_doubles j = true) (run ops [])).
  { apply (run_in_order_keeps _ passes_double); try done.
    intros o now t Ho _. by apply apply_op_tokens_are_doubles. }
  apply (Forall_by_batchId _ b) in Hs, Hn.
  assert (Hsum : reduce_totalTokens (by_batchId b (run ops []))
                 = reduce_totalTokens (completed_jobs (by_batchId b (run ops [])))).
  { unfold reduce_totalTokens. by apply reduce_completed_from. }
  split; [|split; exact Hsum].
  eapply Forall_impl; [exact Hs|]. intros d Ht Hc. simpl in Ht.
  unfold tokens_follow_status, Status_eqb in Ht.
  rewrite bool_decide_eq_false_2 in Ht by done.
  by destruct (totalTokens d.2).
Qed.

(** The statement on a batch of three whose completed jobs hold 2^53 tokens
    and 1 token: the summary is their sum as doubles, 2^53. *)
Lemma C1_witness :
  sum_totalTokens (PublicJobs.getBatchSummary "batch_1" (run big_counters [])).2
  = reduce_totalTokens
      (completed_jobs (by_batchId "batch_1" (run big_counters [])))
  /\ reduce_totalTokens
       (completed_jobs (by_batchId "batch_1" (run big_counters [])))
     = of_Z (2 ^ 53).
Proof.
  split.
  - apply (C1_totalTokens_sums_completed_jobs big_counters "batch_1");
      reflexivity.
  - reflexivity.
Defined.

(** C1 (as stated) fails on a table the mutations reach out of order: the
    job is marked completed with 7 tokens and then marked failed. The patch
    of [setJobFailed] leaves [totalTokens], and the summary counts the 7
    tokens although no job of the batch is completed. *)
Lemma C1_counterexample :
  let t := run failed_with_tokens [] in
  reachable t
  /\ run_in_order failed_with_tokens [] = false
  /\ count_completed (PublicJobs.getBatchSummary "batch_1" t).2 = 0
  /\ reduce_totalTokens (completed_jobs (by_batchId "batch_1" t)) = zero
  /\ sum_totalTokens (PublicJobs.getBatchSummary "batch_1" t).2 = of_Z 7
  /\ sum_totalTokens (PublicJobs.getBatchSummary "batch_1" t).2
     <> reduce_totalTokens (completed_jobs (by_batchId "batch_1" t)).
Proof.
  split; [by exists failed_with_tokens|].
  vm_compute. repeat split; discriminate.
Qed.










(** ** The status sequence of a job *)

Lemma db_patch_lookup_eq (id : JobId) (f : Job -> Job) (t : JobTable) (j : Job) :
  t !! id = Some j -> (db_patch id f t).2 !! id = Some (f j).
Proof.
  intros E. unfold db_patch. rewrite E. simpl.
  apply list_lookup_insert_eq. by apply lookup_lt_Some in E.
Qed.

Lemma db_patch_lookup_ne (id i : JobId) (f : Job -> Job) (t : JobTable) :
  i <> id -> (db_patch i f t).2 !! id = t !! id.
Proof.
  intros Hne. unfold db_patch.
  destruct (t !! i); simpl; [|reflexivity]. by apply list_lookup_insert_ne.
Qed.

Lemma db_insert_lookup (id : JobId) (j0 j : Job) (t : JobTable) :
  t !! id = Some j -> (db_insert j0 t).2 !! id = Some j.
Proof.
  intros E. unfold db_insert; simpl. rewrite lookup_app_l; [exact E|].
  by apply lookup_lt_Some in E.
Qed.

(** A status mutation writes its status on an existing job, whatever the
    status of the job was. *)
Lemma apply_op_target (o : JobOp) (now : N) (t : JobTable) (id : JobId)
    (s : Status) (j : Job) :
  target o = Some (id, s) -> t !! id = Some j ->
  (status <$> apply_op o now t !! id) = Some s.
Proof.
  intros Ho E.
  destruct o; simpl in Ho; try discriminate Ho;
    injection Ho as -> <-; unfold_mutations;
    by rewrite (db_patch_lookup_eq _ _ _ _ E).
Qed.

(** A call made in order moves a job along an edge of the state machine or
    leaves its status. *)
Lemma apply_op_step (o : JobOp) (now : N) (t : JobTable) (id : JobId) (j : Job) :
  in_order o t = true -> t !! id = Some j ->
  exists j', apply_op o now t !! id = Some j'
             /\ (status j' = status j
                 \/ transition_ok (status j) (status j') = true).
Proof.
  intros Hord E.
  destruct o as [| i | i | i | | i | i | i | i]; simpl in Hord;
    unfold_mutations;
    try (exists j; split; [by apply db_insert_lookup|by left]).
  all: destruct (decide (i = id)) as [->|Hne];
    [ rewrite E in Hord; rewrite (db_patch_lookup_eq _ _ _ _ E);
      eexists; split; [reflexivity|]; right;
      destruct j as [? ? ? ? [] ? ? ? ? ? ? ? ? ? ?]; done
    | rewrite db_patch_lookup_ne by exact Hne;
      exists j; split; [exact E|by left] ].
Qed.

Lemma changes_path (id : JobId) (ops : list (JobOp * N)) :
  forall (t : JobTable) (prev : option Status),
    run_in_order ops t = true ->
    (prev = None
     \/ exists a j, prev = Some a /\ t !! id = Some j
                    /\ (status j = a \/ transition_ok a (status j) = true)) ->
    path_ok (option_list prev ++ changes prev (statuses id ops t)) = true.
Proof.
  induction ops as [|o ops IH]; intros t prev Hord Hlink.
  - simpl. destruct (t !! id) as [j|] eqn:E; simpl.
    + case_bool_decide as Hp; [subst prev; reflexivity|].
      destruct Hlink as [->|(a & j' & -> & Ej & Hs)]; [reflexivity|].
      simplify_eq. destruct Hs as [Hs|Hs]; [congruence|].
      simpl. by rewrite Hs.
    + destruct prev; [|reflexivity].
      destruct Hlink as [?|(a & j' & _ & Ej & _)]; congruence.
  - simpl in Hord. apply andb_prop in Hord as [Ho Hord].
    simpl. destruct (t !! id) as [j|] eqn:E; simpl.
    + destruct (apply_op_step o.1 o.2 t id j Ho E) as (j' & Ej' & Hstep).
      assert (Hnext : path_ok (status j :: changes (Some (status j))
                                 (statuses id ops (apply_op o.1 o.2 t))) = true).
      { apply (IH _ (Some (status j)) Hord). right. exists (status j), j'.
        repeat split; [exact Ej'|].
        destruct Hstep as [->|Hs]; [by left|by right]. }
      case_bool_decide as Hp; [subst prev; exact Hnext|].
      destruct Hlink as [->|(a & j0 & -> & Ej & Hs)]; [exact Hnext|].
      simplify_eq. destruct Hs as [Hs|Hs]; [congruence|].
      change (transition_ok a (status j0)
              && path_ok (status j0 :: changes (Some (status j0))
                            (statuses id ops (apply_op o.1 o.2 t))) = true).
      by rewrite Hs, Hnext.
    + destruct prev as [a|].
      * destruct Hlink as [?|(a' & j' & _ & Ej & _)]; congruence.
      * apply (IH _ None Hord). by left.
Qed.

Lemma path_ok_lifecycle (l : list Status) :
  path_ok l = true -> lifecycle_ok l = true.
Proof.
  destruct l as [|a [|b [|c [|d l]]]]; [done|by destruct a|by destruct a, b| |].
  - destruct a, b, c; done.
  - destruct a, b, c, d; done.
Qed.

(** C3 (as amended). A status mutation writes its status on the job whatever
    the status of the job was: the store has no guard. When every call of a
    run is made in the order of the state machine (mark processing on a
    pending job, mark completed or failed on a job in processing), as the
    orchestrator does for a pending job, the status sequence observed on any
    job only follows the edges pending to processing, processing to
    completed and processing to failed, and is a subsequence of one of the
    two lifecycles. *)
Theorem C3_status_sequence (id : JobId) (ops : list (JobOp * N)) (t : JobTable) :
  (forall o now s j, target o = Some (id, s) -> t !! id = Some j ->
     (status <$> apply_op o now t !! id) = Some s)
  /\ (run_in_order ops t = true ->
      path_ok (observed id ops t) = true
      /\ lifecycle_ok (observed id ops t) = true).
Proof.
  split.
  - intros o now s j. apply apply_op_target.
  - intros Hord.
    assert (Hp : path_ok (observed id ops t) = true).
    { apply (changes_path id ops t None Hord). by left. }
    split; [exact Hp|by apply path_ok_lifecycle].
Qed.

(** The amended statement on the orchestrator's two runs, and the overwrite
    on a job that is already completed. *)
Lemma C3_witness :
  observed 0 lifecycle_completed [] = [pending; processing; completed]
  /\ lifecycle_ok (observed 0 lifecycle_completed []) = true
  /\ observed 0 lifecycle_failed [] = [pending; processing; failed]
  /\ lifecycle_ok (observed 0 lifecycle_failed []) = true
  /\ (status <$> apply_op (OpSetJobProcessing 0) 9%N
                   (run lifecycle_completed []) !! 0) = Some processing.
Proof.
  split; [reflexivity|]. split.
  { apply (C3_status_sequence 0 lifecycle_completed []). reflexivity. }
  split; [reflexivity|]. split.
  { apply (C3_status_sequence 0 lifecycle_failed []). reflexivity. }
  destruct (run lifecycle_completed [] !! 0) as [j|] eqn:E; [|discriminate E].
  exact (proj1 (C3_status_sequence 0 [] (run lifecycle_completed []))
           (OpSetJobProcessing 0) 9%N processing j eq_refl E).
Defined.

(** C3 (as stated) fails: marked completed while pending and then marked
    processing, a job shows pending, completed, processing. *)
Lemma C3_counterexample :
  observed 0 completed_then_processing [] = [pending; completed; processing]
  /\ lifecycle_ok (observed 0 completed_then_processing []) = false
  /\ path_ok (observed 0 completed_then_processing []) = false.
Proof. vm_compute. repeat split. Qed.

(** ** Listing jobs *)

(** C10 (as amended). When [listJobs] is given a batch id that is not the
    empty string, the status argument has no effect: the page is the one
    [listJobs] returns for the batch id alone, a slice of all the jobs of
    the batch whatever their status. *)
Theorem C10_status_ignored_with_batchId (limit offset : option Z)
    (st : Status) (b : string) (t : JobTable) :
  b <> "" ->
  PublicJobs.listJobs limit offset (Some st) (Some b) t
  = PublicJobs.listJobs limit offset None (Some b) t
  /\ page_jobs (PublicJobs.listJobs limit offset (Some st) (Some b) t)
     = js_slice (by_batchId b t) (default 0%Z offset)
         (default 0%Z offset + default 50%Z limit)
  /\ page_total (PublicJobs.listJobs limit offset (Some st) (Some b) t)
     = length (by_batchId b t).
Proof.
  intros Hb. destruct b as [|c b]; [contradiction|].
  repeat split.
Qed.

(** The amended statement on a batch whose jobs are pending and failed: the
    filter [completed] returns both. *)
Lemma C10_witness :
  PublicJobs.listJobs None None (Some completed) (Some "batch_1")
    (run batch_of_two [])
  = PublicJobs.listJobs None None None (Some "batch_1") (run batch_of_two [])
  /\ map (fun d => status d.2)
       (page_jobs (PublicJobs.listJobs None None (Some completed)
                     (Some "batch_1") (run batch_of_two [])))
     = [pending; failed].
Proof.
  split.
  - apply (C10_status_ignored_with_batchId None None completed "batch_1"
             (run batch_of_two [])). discriminate.
  - reflexivity.
Defined.

(** C10 (as stated) fails for the empty batch id, which is falsy: the status
    filter then applies, and the call without it lists every job. *)
Lemma C10_counterexample :
  page_total (PublicJobs.listJobs None None (Some completed) (Some "")
                (run two_jobs [])) = 1
  /\ page_total (PublicJobs.listJobs None None None (Some "")
                   (run two_jobs [])) = 2
  /\ PublicJobs.listJobs None None (Some completed) (Some "") (run two_jobs [])
     <> PublicJobs.listJobs None None None (Some "") (run two_jobs []).
Proof.
  split; [reflexivity|]. split; [reflexivity|].
  intros H. apply (f_equal page_total) in H. vm_compute in H. discriminate H.
Qed.

(** ** Presets *)

Lemma by_name_elem (n : string) (t : PresetTable) (id : PresetId) (p : Preset) :
  (id, p) ∈ by_name n t <-> t !! id = Some p /\ preset_name p = n.
Proof.
  unfold by_name. rewrite elem_of_map_to_list.
  by rewrite map_lookup_filter_Some.
Qed.

Lemma by_name_insert_fresh (n : string) (t : PresetTable) (p : Preset) :
  by_name n t = [] -> preset_name p = n ->
  by_name n (<[fresh (dom t) := p]> t) = [(fresh (dom t), p)].
Proof.
  unfold by_name. intros Hempty Hn.
  apply map_to_list_empty_iff in Hempty.
  rewrite map_filter_insert_True by exact Hn.
  rewrite Hempty, insert_empty. apply map_to_list_singleton.
Qed.

(** A successful [create] leaves one document with the name, and a second
    [create] with that name throws without writing. *)
Lemma create_handler_twice (X : string) (cfg cfg' : Config) (now now' : N)
    (t t1 : PresetTable) (id : PresetId) :
  create_handler X cfg now t = (Ok id, t1) ->
  by_name X t1 = [(id, mkPreset X cfg now now)]
  /\ t1 !! id = Some (mkPreset X cfg now now)
  /\ create_handler X cfg' now' t1 = (Throw (already_exists X), t1).
Proof.
  unfold create_handler at 1.
  destruct (by_name X t) as [|d [|d' l]] eqn:E; simpl; try discriminate.
  intros H. injection H as <- <-.
  assert (Hone := by_name_insert_fresh X t (mkPreset X cfg now now) E eq_refl).
  split; [exact Hone|]. split; [apply lookup_insert_eq|].
  unfold create_handler. by rewrite Hone.
Qed.

(** C8. After a successful [createPreset X config], a second [createPreset X
    config'] throws the duplicate-name error and leaves the table as it was:
    the table still holds exactly one preset named [X], the first one, with
    its configuration. The same holds for the internal [presets.create]. *)
Theorem C8_second_create_fails (X : string) (cfg cfg' : Config) (now now' : N)
    (t t1 : PresetTable) (id : PresetId) :
  (PublicPresets.createPreset X cfg now t = (Ok id, t1) ->
   PublicPresets.createPreset X cfg' now' t1 = (Throw (already_exists X), t1)
   /\ by_name X t1 = [(id, mkPreset X cfg now now)]
   /\ t1 !! id = Some (mkPreset X cfg now now))
  /\ (Presets.create X cfg now t = (Ok id, t1) ->
      Presets.create X cfg' now' t1 = (Throw (already_exists X), t1)
      /\ by_name X t1 = [(id, mkPreset X cfg now now)]
      /\ t1 !! id = Some (mkPreset X cfg now now)).
Proof.
  split.
  - unfold PublicPresets.createPreset.
    destruct (negb (truthy X) || (String.length (trim X) =? 0)%nat);
      [discriminate|].
    intros H.
    destruct (create_handler_twice X cfg cfg' now now' t t1 id H)
      as (Hone & Hid & Hdup).
    by repeat split.
  - unfold Presets.create. intros H.
    destruct (create_handler_twice X cfg cfg' now now' t t1 id H)
      as (Hone & Hid & Hdup).
    by repeat split.
Qed.

(** The statement on the empty table: the first call succeeds, the second
    throws and the table keeps the first preset. *)
Lemma C8_witness :
  PublicPresets.createPreset "X" pro_config 1%N ∅ = (Ok 0, one_preset)
  /\ PublicPresets.createPreset "X" sample_config 2%N one_preset
     = (Throw (already_exists "X"), one_preset)
  /\ one_preset !! 0 = Some (mkPreset "X" pro_config 1%N 1%N).
Proof.
  assert (H : PublicPresets.createPreset "X" pro_config 1%N ∅
              = (Ok 0, one_preset)) by reflexivity.
  split; [exact H|].
  destruct (proj1 (C8_second_create_fails "X" pro_config sample_config
                     1%N 2%N ∅ one_preset 0) H) as (Hdup & _ & Hid).
  split; [exact Hdup|exact Hid].
Defined.

Lemma update_handler_existing (name : string) (C : Config) (now : N)
    (t : PresetTable) (id : PresetId) (p : Preset) :
  unique (by_name name t) = Ok (Some (id, p)) ->
  t !! id = Some p /\ preset_name p = name
  /\ update_handler name C now t
     = (Ok tt, <[id := mkPreset (preset_name p)
                          (patch_config C (preset_config p))
                          (preset_createdAt p) now]> t).
Proof.
  intros H. unfold update_handler. rewrite H. simpl.
  destruct (by_name name t) as [|d [|d' l]] eqn:E; simpl in H;
    try discriminate H.
  injection H as ->.
  assert (Hin : (id, p) ∈ by_name name t) by (rewrite E; apply list_elem_of_here).
  apply by_name_elem in Hin as [Hid Hn]. by repeat split.
Qed.

(** C9 (as amended). For an existing preset [name] and a configuration [C],
    [updatePreset name C] overwrites the eight required configuration fields
    and each optional field ([ownLogoData], [modelVersion], [aspectRatio],
    [imageSize]) that [C] carries; an optional field absent from [C] keeps
    the value stored before. The name and [createdAt] are preserved and
    [updatedAt] is the time of the call. The internal [presets.update] does
    the same. *)
Theorem C9_update_patches (name : string) (C : Config) (now : N)
    (t : PresetTable) (id : PresetId) (p : Preset) :
  PublicPresets.getPreset name t = Ok (Some (id, p)) ->
  exists p',
    PublicPresets.updatePreset name C now t = (Ok tt, <[id := p']> t)
    /\ Presets.update name C now t = (Ok tt, <[id := p']> t)
    /\ preset_name p' = name
    /\ preset_createdAt p' = preset_createdAt p
    /\ preset_updatedAt p' = now
    /\ targetCountry (preset_config p') = targetCountry C
    /\ additionalContext (preset_config p') = additionalContext C
    /\ removeBranding (preset_config p') = removeBranding C
    /\ addBrandingColors (preset_config p') = addBrandingColors C
    /\ brandingColor (preset_config p') = brandingColor C
    /\ addOwnLogo (preset_config p') = addOwnLogo C
    /\ filenameFindPattern (preset_config p') = filenameFindPattern C
    /\ filenameReplacePattern (preset_config p') = filenameReplacePattern C
    /\ ownLogoData (preset_config p')
       = (if isSome (ownLogoData C) then ownLogoData C
          else ownLogoData (preset_config p))
    /\ modelVersion (preset_config p')
       = (if isSome (modelVersion C) then modelVersion C
          else modelVersion (preset_config p))
    /\ aspectRatio (preset_config p')
       = (if isSome (aspectRatio C) then aspectRatio C
          else aspectRatio (preset_config p))
    /\ imageSize (preset_config p')
       = (if isSome (imageSize C) then imageSize C
          else imageSize (preset_config p)).
Proof.
  unfold PublicPresets.getPreset. intros H.
  destruct (update_handler_existing name C now t id p H) as (Hid & Hn & Hup).
  eexists. split; [exact Hup|]. split; [exact Hup|]. simpl.
  repeat split; try exact Hn;
    unfold patch_field; by destruct C as [? ? ? ? ? ? [] ? ? [] [] []].
Qed.

(** The amended statement on the store with the preset [X]: an update that
    carries no optional field rewrites the required fields and keeps the
    model, the aspect ratio, the image size and the logo. *)
Lemma C9_witness :
  exists p',
    (PublicPresets.updatePreset "X" sample_config 5%N one_preset).2 !! 0
    = Some p'
    /\ targetCountry (preset_config p') = "Japan"
    /\ modelVersion (preset_config p') = Some "gemini-3-pro-image-preview"
    /\ preset_createdAt p' = 1%N
    /\ preset_updatedAt p' = 5%N.
Proof.
  assert (H : PublicPresets.getPreset "X" one_preset
              = Ok (Some (0, mkPreset "X" pro_config 1%N 1%N)))
    by reflexivity.
  destruct (C9_update_patches "X" sample_config 5%N one_preset 0 _ H)
    as (p' & Hup & _ & _ & Hc & Hu & Ht & _ & _ & _ & _ & _ & _ & _ & _
        & Hm & _).
  exists p'. rewrite Hup. simpl. rewrite lookup_insert_eq.
  repeat split; assumption.
Defined.

(** C9 (as stated) fails: the preset [X] names a model; after an update whose
    configuration has no [modelVersion] the stored preset still names it. *)
Lemma C9_counterexample :
  modelVersion sample_config = None
  /\ (modelVersion <$> (preset_config <$>
        (PublicPresets.updatePreset "X" sample_config 5%N one_preset).2 !! 0))
     = Some (Some "gemini-3-pro-image-preview")
  /\ (preset_config <$>
        (PublicPresets.updatePreset "X" sample_config 5%N one_preset).2 !! 0)
     <> Some sample_config.
Proof.
  split; [reflexivity|]. split; [reflexivity|].
  intros H. apply (f_equal (fmap modelVersion)) in H.
  vm_compute in H. discriminate H.
Qed.

(** ** Strings *)

Lemma append_cons (x : ascii) (a b : string) :
  String x a +:+ b = String x (a +:+ b).
Proof. reflexivity. Qed.

Lemma append_empty_l (a : string) : "" +:+ a = a.
Proof. reflexivity. Qed.

Lemma append_assoc (a b c : string) : (a +:+ b) +:+ c = a +:+ (b +:+ c).
Proof.
  induction a as [|x a IH]; [reflexivity|].
  by rewrite !append_cons, IH.
Qed.

Lemma append_empty_r (a : string) : a +:+ "" = a.
Proof.
  induction a as [|x a IH]; [reflexivity|]. by rewrite append_cons, IH.
Qed.

Lemma toLowerCase_append (a b : string) :
  toLowerCase (a +:+ b) = toLowerCase a +:+ toLowerCase b.
Proof.
  induction a as [|x a IH]; [reflexivity|].
  rewrite append_cons. simpl. by rewrite IH.
Qed.

Lemma endsWith_unfold (suffix s : string) :
  endsWith suffix s
  = if (s =? suffix)%string then true
    else match s with
         | EmptyString => false
         | String _ s' => endsWith suffix s'
         end.
Proof. by destruct s. Qed.

Lemma endsWith_append (suffix a : string) : endsWith suffix (a +:+ suffix) = true.
Proof.
  induction a as [|x a IH].
  - rewrite append_empty_l, endsWith_unfold. by rewrite String.eqb_refl.
  - rewrite append_cons, endsWith_unfold, IH. by destruct (String.eqb _ _).
Qed.

Lemma hasExtension_png (a : string) : hasExtension (a +:+ ".png") = true.
Proof.
  unfold hasExtension. rewrite toLowerCase_append.
  change (toLowerCase ".png") with ".png".
  simpl. by rewrite endsWith_append.
Qed.

Lemma digit_not_dollar (c : ascii) : is_digit c = true -> (c =? "$")%char = false.
Proof. destruct c as [[] [] [] [] [] [] [] []]; done. Qed.

Lemma string_of_uint_digits (u : Decimal.uint) :
  all_digits (NilEmpty.string_of_uint u) = true.
Proof. induction u; simpl; auto. Qed.

Lemma toString_digits (n : N) : all_digits (toString n) = true.
Proof. apply string_of_uint_digits. Qed.

Lemma toString_nonempty (n : N) : toString n <> "".
Proof.
  unfold toString. destruct n as [|p]; [discriminate|]. simpl.
  pose proof (Unsigned.to_uint_nonnil p) as Hp.
  destruct (Pos.to_uint p); [congruence|..]; discriminate.
Qed.

(** A run of digits in a template stands for itself. *)
Lemma substitute_digits (m : MatchResult) (str d tpl : string) :
  all_digits d = true ->
  substitute m str 0 (d +:+ tpl) = d +:+ substitute m str 0 tpl.
Proof.
  induction d as [|c d IH]; [reflexivity|].
  rewrite !append_cons. simpl.
  intros H. apply andb_prop in H as [Hc Hd].
  by rewrite (digit_not_dollar c Hc), (IH Hd).
Qed.

(** ** The filename deriver *)

Lemma last_word_compile :
  Backtracking.compile "^.*-([^-.]+)\..*$" = Ok last_word_pattern.
Proof. vm_compute. reflexivity. Qed.

Lemma last_word_exec :
  Backtracking.exec last_word_pattern "inhale-exhale-customneon-mintgreen.jpg"
  = Some (mkMatch 0 "inhale-exhale-customneon-mintgreen.jpg"
            [Some "mintgreen"] None).
Proof. vm_compute. reflexivity. Qed.

(** *** The backtracking matcher on a run of digits *)

Lemma length_append (a b : string) :
  String.length (a +:+ b) = String.length a + String.length b.
Proof.
  induction a as [|x a IH]; [reflexivity|].
  rewrite append_cons. simpl. by rewrite IH.
Qed.

Lemma RepeatMatcher_unbounded (m : Backtracking.Matcher) (ids : list nat)
    (c : Backtracking.Continuation) (fuel min : nat) (greedy : bool)
    (x : Backtracking.MState) :
  Backtracking.RepeatMatcher m ids c (S fuel) min None greedy x
  = let d (y : Backtracking.MState) :=
      if ((min =? 0) && (Backtracking.endIndex y =? Backtracking.endIndex x))%nat
      then None
      else Backtracking.RepeatMatcher m ids c fuel (min - 1) None greedy y in
    let xr := Backtracking.clear_captures ids x in
    if negb (min =? 0)%nat then m xr d
    else if greedy then
      match m xr d with
      | Some z => Some z
      | None => c x
      end
    else
      match c x with
      | Some z => Some z
      | None => m xr d
      end.
Proof. reflexivity. Qed.

Lemma rmatch_digit_class (i : nat) (s : string) (caps : list (option string))
    (k : Backtracking.Continuation) :
  Backtracking.rmatch (Backtracking.RClass false [Backtracking.CDigit false])
    (Backtracking.mkState i s caps) k
  = match s with
    | String ch s' =>
        if is_digit ch then k (Backtracking.mkState (S i) s' caps) else None
    | EmptyString => None
    end.
Proof.
  destruct s as [|ch s']; [reflexivity|].
  simpl. unfold Backtracking.one, Backtracking.class_matches. simpl.
  by destruct (is_digit ch).
Qed.

(** A greedy [\d+] (or [\d*]) in front of a run of digits that is followed by
    something else takes the whole run when the rest of the pattern accepts
    what follows. *)
Lemma RepeatMatcher_digits (d r : string) (caps : list (option string))
    (c : Backtracking.Continuation) (z : Backtracking.MState) :
  all_digits d = true ->
  match r with String ch _ => is_digit ch = false | EmptyString => True end ->
  forall (i fuel min : nat),
    min <= String.length d -> String.length d < fuel ->
    c (Backtracking.mkState (i + String.length d) r caps) = Some z ->
    Backtracking.RepeatMatcher
      (Backtracking.rmatch (Backtracking.RClass false [Backtracking.CDigit false]))
      [] c fuel min None true (Backtracking.mkState i (d +:+ r) caps)
    = Some z.
Proof.
  intros Hd Hr. induction d as [|ch d IH]; intros i fuel min Hmin Hfuel Hc;
    (destruct fuel as [|fuel]; [simpl in Hfuel; lia|]);
    rewrite RepeatMatcher_unbounded; cbv zeta;
    change (Backtracking.clear_captures [] (Backtracking.mkState i ?s caps))
      with (Backtracking.mkState i s caps);
    rewrite rmatch_digit_class.
  - simpl in Hmin, Hc. assert (min = 0) as -> by lia.
    rewrite append_empty_l. rewrite Nat.add_0_r in Hc. simpl.
    destruct r as [|ch r]; [exact Hc|]. by rewrite Hr.
  - simpl in Hd. apply andb_prop in Hd as [Hch Hd].
    simpl in Hmin, Hfuel, Hc. rewrite Nat.add_succ_r in Hc.
    rewrite append_cons, Hch.
    change (Backtracking.endIndex (Backtracking.mkState ?j _ _)) with j.
    replace (S i =? i)%nat with false by (symmetry; apply Nat.eqb_neq; lia).
    rewrite andb_false_r.
    rewrite (IH Hd (S i) fuel (min - 1)) by (try lia; exact Hc).
    by destruct (negb _).
Qed.

Lemma rmatch_char_cons (c : ascii) (r : Backtracking.Re) (i : nat) (s : string)
    (caps : list (option string)) (k : Backtracking.Continuation) :
  Backtracking.rmatch (Backtracking.RSeq (Backtracking.RChar c) r)
    (Backtracking.mkState i (String c s) caps) k
  = Backtracking.rmatch r (Backtracking.mkState (S i) s caps) k.
Proof.
  simpl. unfold Backtracking.one. simpl. by rewrite Ascii.eqb_refl.
Qed.

Lemma rmatch_start (r : Backtracking.Re) (s : string)
    (caps : list (option string)) (k : Backtracking.Continuation) :
  Backtracking.rmatch (Backtracking.RSeq Backtracking.RStart r)
    (Backtracking.mkState 0 s caps) k
  = Backtracking.rmatch r (Backtracking.mkState 0 s caps) k.
Proof. reflexivity. Qed.

(** The name of the documented example is accepted by the expression that
    describes it. *)
Lemma expected_name_matches (t : N) :
  exists re,
    compile (RegExp := Backtracking.engine) "^neonLED_mintgreen_\d+\.png$" = Ok re
    /\ test (engine := Backtracking.engine) re
         ("neonLED_mintgreen_" +:+ toString t +:+ ".png") = true.
Proof.
  eexists. split; [vm_compute; reflexivity|].
  unfold test.
  change (@exec Backtracking.engine) with Backtracking.exec.
  unfold Backtracking.exec.
  rewrite !append_cons, append_empty_l.
  unfold Backtracking.exec_from.
  cbv [Backtracking.re Backtracking.ngroups replicate].
  rewrite rmatch_start.
  rewrite !rmatch_char_cons.
  change (Backtracking.rmatch
            (Backtracking.RSeq (Backtracking.RRepeat ?mn ?mx ?g ?r1) ?r2)
            ?x ?k)
    with (Backtracking.RepeatMatcher (Backtracking.rmatch r1)
            (Backtracking.group_ids r1)
            (fun y => Backtracking.rmatch r2 y k)
            (mn + String.length (Backtracking.rest x) + 1) mn mx g x).
  erewrite RepeatMatcher_digits;
    [reflexivity|apply toString_digits|reflexivity| |
     |reflexivity].
  - pose proof (toString_nonempty t). destruct (toString t); [done|simpl; lia].
  - simpl. rewrite length_append. lia.
Qed.

(** C5. With the clock at [t], the documented example is renamed to
    [neonLED_mintgreen_], the decimal digits of [t], [.png]; the digits are
    at least one, and the name is accepted by [^neonLED_mintgreen_\d+\.png$].
    The name is a function of the three arguments and of the clock
    reading. *)
Theorem C5_documented_example (t : N) :
  generateOutputFilename (engine := Backtracking.engine)
    "inhale-exhale-customneon-mintgreen.jpg" "^.*-([^-.]+)\..*$"
    "neonLED_$1_TIMESTAMP.png" t
  = "neonLED_mintgreen_" +:+ toString t +:+ ".png"
  /\ all_digits (toString t) = true
  /\ toString t <> ""
  /\ exists re,
       compile (RegExp := Backtracking.engine) "^neonLED_mintgreen_\d+\.png$"
       = Ok re
       /\ test (engine := Backtracking.engine) re
            (generateOutputFilename (engine := Backtracking.engine)
               "inhale-exhale-customneon-mintgreen.jpg" "^.*-([^-.]+)\..*$"
               "neonLED_$1_TIMESTAMP.png" t)
          = true.
Proof.
  assert (Hname :
    generateOutputFilename (engine := Backtracking.engine)
      "inhale-exhale-customneon-mintgreen.jpg" "^.*-([^-.]+)\..*$"
      "neonLED_$1_TIMESTAMP.png" t
    = "neonLED_mintgreen_" +:+ toString t +:+ ".png");
    [|split; [exact Hname|];
      split; [apply toString_digits|];
      split; [apply toString_nonempty|];
      rewrite Hname; apply expected_name_matches].
  unfold generateOutputFilename, try_rename, test, replace.
  change (working_name "inhale-exhale-customneon-mintgreen.jpg")
    with "inhale-exhale-customneon-mintgreen.jpg".
  change (@compile Backtracking.engine) with Backtracking.compile.
  change (@exec Backtracking.engine) with Backtracking.exec.
  rewrite last_word_compile. cbv beta iota.
  rewrite last_word_exec.
  change (truthy "^.*-([^-.]+)\..*$" && truthy "neonLED_$1_TIMESTAMP.png")
    with true.
  cbv beta iota.
  change (replace_TIMESTAMP (toString t) 0 "neonLED_$1_TIMESTAMP.png")
    with ("neonLED_$1_" +:+ toString t +:+ ".png").
  assert (Hsub :
    GetSubstitution
      (mkMatch 0 "inhale-exhale-customneon-mintgreen.jpg"
         [Some "mintgreen"] None)
      "inhale-exhale-customneon-mintgreen.jpg"
      ("neonLED_$1_" +:+ toString t +:+ ".png")
    = "neonLED_mintgreen_" +:+ toString t +:+ ".png").
  { unfold GetSubstitution.
    change (substitute ?m ?s 0 ("neonLED_$1_" +:+ toString t +:+ ".png"))
      with ("neonLED_mintgreen_" +:+ substitute m s 0 (toString t +:+ ".png")).
    rewrite substitute_digits by apply toString_digits. reflexivity. }
  rewrite Hsub.
  change (String.substring 0 _ "inhale-exhale-customneon-mintgreen.jpg")
    with "".
  change (string_drop _ "inhale-exhale-customneon-mintgreen.jpg") with "".
  change ("" +:+ ?a +:+ "") with (a +:+ "").
  rewrite append_empty_r.
  change ("neonLED_mintgreen_" +:+ toString t +:+ ".png")
    with (("neonLED_mintgreen_" +:+ toString t) +:+ ".png") at 1.
  replace ("neonLED_mintgreen_" +:+ toString t +:+ ".png")
    with (("neonLED_mintgreen_" +:+ toString t) +:+ ".png")
    by apply append_assoc.
  by rewrite hasExtension_png.
Qed.

(** The first pass, equation by equation: at an occurrence of the token the
    clock reading is written and the scan resumes after the token; any other
    code unit is copied. *)
Lemma replace_TIMESTAMP_token (ts rest : string) :
  replace_TIMESTAMP ts 0 ("TIMESTAMP" +:+ rest)
  = ts +:+ replace_TIMESTAMP ts 0 rest.
Proof. by destruct rest. Qed.


(** C6. When the find pattern compiles and matches the working name, the
    name is derived in two passes in this order: every [TIMESTAMP] of the
    replace template becomes the clock reading, and then the capture groups
    of the match are substituted in the template so obtained; the [.png]
    rule is applied to the result. A [$n] of the template is therefore
    resolved after the [TIMESTAMP] substitution. This holds for every regular
    expression engine. *)
Theorem C6_timestamp_then_groups {engine : RegExp}
    (originalName findPattern replacePattern : string) (now : N) (re : regex) :
  findPattern <> "" -> replacePattern <> "" ->
  compile findPattern = Ok re ->
  test re (working_name originalName) = true ->
  generateOutputFilename originalName findPattern replacePattern now
  = with_png (two_pass (working_name originalName) re replacePattern now).
Proof.
  intros Hf Hr Hc Ht.
  unfold generateOutputFilename, try_rename, with_png, two_pass.
  destruct findPattern; [contradiction|].
  destruct replacePattern; [contradiction|].
  simpl. rewrite Hc, Ht. by destruct (hasExtension _).
Qed.

(** The statement where the order shows: the captured text is [TIMESTAMP]
    itself; it is left as captured, which the other order would not do. *)
Lemma C6_witness :
  generateOutputFilename (engine := Backtracking.engine)
    "shot-TIMESTAMP.jpg" "^.*-([^-.]+)\..*$" "x_$1_TIMESTAMP.png" 17%N
  = "x_TIMESTAMP_17.png"
  /\ with_png (groups_first (engine := Backtracking.engine)
                 "shot-TIMESTAMP.jpg" last_word_pattern "x_$1_TIMESTAMP.png"
                 17%N)
     = "x_17_17.png".
Proof.
  split; [|reflexivity].
  rewrite (C6_timestamp_then_groups (engine := Backtracking.engine)
             "shot-TIMESTAMP.jpg" "^.*-([^-.]+)\..*$" "x_$1_TIMESTAMP.png"
             17%N last_word_pattern);
    [reflexivity|discriminate|discriminate|reflexivity|reflexivity].
Defined.

(** C7. [generateOutputFilename] returns a name for every input. When the
    find pattern is empty, does not compile, or does not match the working
    name, the name is [localized_], the clock reading, [.png]; the exception
    of [new RegExp] is raised inside the [try] block and goes no further. *)
Theorem C7_fallback_name {engine : RegExp}
    (originalName findPattern replacePattern : string) (now : N) :
  (findPattern = ""
   \/ (exists e, compile findPattern = Throw e)
   \/ (exists re, compile findPattern = Ok re
                  /\ test re (working_name originalName) = false)) ->
  generateOutputFilename originalName findPattern replacePattern now
  = "localized_" +:+ toString now +:+ ".png"
  /\ (forall e, compile findPattern = Throw e ->
        try_rename (working_name originalName) findPattern replacePattern now
        = Throw e).
Proof.
  intros H. split.
  - unfold generateOutputFilename, try_rename, default_name.
    destruct H as [->|[[e He]|(re & Hc & Ht)]]; [reflexivity|..].
    + rewrite He. by destruct (truthy findPattern && truthy replacePattern).
    + rewrite Hc, Ht. by destruct (truthy findPattern && truthy replacePattern).
  - intros e He. unfold try_rename. by rewrite He.
Qed.

(** The three cases of the statement with the backtracking matcher: an empty
    pattern, the pattern ["("], and a name without a dash. *)
Lemma C7_witness :
  generateOutputFilename (engine := Backtracking.engine)
    "a-red.jpg" "" "neonLED_$1_TIMESTAMP.png" 17%N = "localized_17.png"
  /\ generateOutputFilename (engine := Backtracking.engine)
       "a-red.jpg" "(" "neonLED_$1_TIMESTAMP.png" 17%N = "localized_17.png"
  /\ generateOutputFilename (engine := Backtracking.engine)
       "nodash.jpg" "^.*-([^-.]+)\..*$" "neonLED_$1_TIMESTAMP.png" 17%N
     = "localized_17.png".
Proof.
  split; [|split].
  - apply (C7_fallback_name (engine := Backtracking.engine)
             "a-red.jpg" "" "neonLED_$1_TIMESTAMP.png" 17%N).
    by left.
  - apply (C7_fallback_name (engine := Backtracking.engine)
             "a-red.jpg" "(" "neonLED_$1_TIMESTAMP.png" 17%N).
    right; left. by exists Backtracking.SyntaxError.
  - apply (C7_fallback_name (engine := Backtracking.engine)
             "nodash.jpg" "^.*-([^-.]+)\..*$" "neonLED_$1_TIMESTAMP.png" 17%N).
    right; right. by exists last_word_pattern.
Defined.

(** ** The orchestrator *)


Lemma failure_message_recordable (e : JsError) :
  recordable e = true ->
  failure_message e = Ok (or_else (message_text e) "Unknown error").
Proof. by destruct e as [| |[[]|]]. Qed.

Lemma failure_message_other (e : JsError) :
  recordable e = false -> exists e', failure_message e = Throw e'.
Proof. destruct e as [| |[[]|]]; try done; by eexists. Qed.

(** [processJob] on an existing job, call by call. *)
Lemma processJob_existing {engine : RegExp} (env : Env) (jobId : JobId)
    (t : JobTable) (job : Job) :
  t !! jobId = Some job ->
  processJob env jobId t
  = let t1 := <[jobId := set_status processing job]> t in
    match generate env job with
    | Ok g =>
        Jobs.setCompleted jobId (g_fileId g) (g_fileName g) (g_url g)
          (Some (g_promptTokens g)) (Some (g_candidateTokens g))
          (Some (g_totalTokens g)) (now_mutation env) t1
    | Throw e =>
        match failure_message e with
        | Ok msg => Jobs.setFailed jobId msg (now_mutation env) t1
        | Throw e' => (Throw e', t1)
        end
    end.
Proof.
  intros E. unfold processJob, Jobs.getById, db_get. rewrite E.
  unfold Jobs.setProcessing, db_patch at 1. rewrite E.
  pose proof (lookup_lt_Some _ _ _ E) as Hlt.
  assert (E1 : <[jobId := set_status processing job]> t !! jobId
               = Some (set_status processing job))
    by (by apply list_lookup_insert_eq).
  unfold try_block. cbv zeta.
  destruct (generate env job) as [g|e].
  - unfold Jobs.setCompleted, db_patch. by rewrite E1.
  - by destruct (failure_message e).
Qed.

(** [processJob] on an existing job: when the [try] block succeeds the job is
    completed; when a step throws, the job is failed with the message the
    [catch] clause computes, or the [catch] clause throws in turn and the
    job stays in processing. *)
Lemma processJob_returns {engine : RegExp} (env : Env) (jobId : JobId)
    (t : JobTable) (job : Job) :
  t !! jobId = Some job ->
  exists r t' j',
    processJob env jobId t = (r, t')
    /\ t' !! jobId = Some j'
    /\ match generate env job with
       | Ok _ => r = Ok tt /\ status j' = completed
       | Throw e =>
           match failure_message e with
           | Ok msg => r = Ok tt /\ status j' = failed /\ error j' = Some msg
           | Throw e' =>
               r = Throw e' /\ status j' = processing /\ error j' = error job
           end
       end.
Proof.
  intros E. rewrite (processJob_existing env jobId t job E). cbv zeta.
  pose proof (lookup_lt_Some _ _ _ E) as Hlt.
  assert (E1 : <[jobId := set_status processing job]> t !! jobId
               = Some (set_status processing job))
    by (by apply list_lookup_insert_eq).
  destruct (generate env job) as [g|e].
  - unfold Jobs.setCompleted, db_patch. rewrite E1.
    eexists _, _, _. split; [reflexivity|].
    split; [apply list_lookup_insert_eq; by rewrite length_insert|].
    by split.
  - destruct (failure_message e) as [msg|e'].
    + unfold Jobs.setFailed, db_patch. rewrite E1.
      eexists _, _, _. split; [reflexivity|].
      split; [apply list_lookup_insert_eq; by rewrite length_insert|].
      by repeat split.
    + eexists _, _, _. split; [reflexivity|]. split; [exact E1|].
      by repeat split.
Qed.

(** In a world where every step succeeds the job is completed, with the name
    derived from the last segment of its URL and the token counts of the
    response. *)
Lemma processJob_healthy :
  let t' := (processJob (engine := Backtracking.engine) healthy 0 one_pending).2 in
  (status <$> t' !! 0) = Some completed
  /\ (generatedFileName <$> t' !! 0) = Some (Some "neonLED_red_10.png")
  /\ (totalTokens <$> t' !! 0) = Some (Some (of_Z 30))
  /\ forallb job_invariant t' = true.
Proof. vm_compute. repeat split. Qed.

(** A batch of three whose second job is stopped by the model: the batch
    call returns normally, two jobs are completed and one has failed. *)
Lemma processBatch_second_blocked :
  let r := processBatch (engine := Backtracking.engine) second_blocked
             "batch_3" three_pending in
  r.1 = Ok tt
  /\ Jobs.getBatchSummary "batch_3" r.2 = mkSummary 3 2 1 0 0 (of_Z 60)
  /\ (error <$> r.2 !! 1) = Some (Some "Generation stopped: SAFETY").
Proof. vm_compute. repeat split. Qed.




(** * More properties of the job store *)

Lemma docs_lookup (t : JobTable) (i : nat) :
  docs t !! i = (fun j => (i, j)) <$> t !! i.
Proof. unfold docs. apply list_lookup_imap. Qed.

Lemma docs_length (t : JobTable) : length (docs t) = length t.
Proof. unfold docs. apply length_imap. Qed.

Lemma count_status_cons (s : Status) (d : JobDoc) (jobs : list JobDoc) :
  count_status s (d :: jobs)
  = (if Status_eqb (status d.2) s then 1 else 0) + count_status s jobs.
Proof.
  unfold count_status, Status_eqb. rewrite filter_cons.
  destruct (decide (status d.2 = s)) as [H|H].
  - by rewrite bool_decide_eq_true_2.
  - by rewrite bool_decide_eq_false_2.
Qed.

Lemma summarize_partition (jobs : list JobDoc) :
  total (summarize jobs)
  = count_completed (summarize jobs) + count_failed (summarize jobs)
    + count_pending (summarize jobs) + count_processing (summarize jobs).
Proof.
  simpl. induction jobs as [|d jobs IH]; [reflexivity|].
  rewrite !count_status_cons. simpl length. rewrite IH.
  destruct (status d.2); simpl; lia.
Qed.

(** X1. In a batch summary the four status counters add up to [total]:
    every job of the batch is counted under exactly one status. *)
Theorem X1_summary_counters_add_up (b : string) (t : JobTable) :
  let s := (PublicJobs.getBatchSummary b t).2 in
  total s = count_completed s + count_failed s + count_pending s
            + count_processing s
  /\ total s = length (PublicJobs.getJobsByBatch b t)
  /\ Jobs.getBatchSummary b t = s.
Proof.
  simpl. split; [apply (summarize_partition (by_batchId b t))|].
  split; reflexivity.
Qed.

(** X2. A status mutation called with the id of no job throws and leaves
    the table as it was. *)
Theorem X2_unknown_job_throws (o : JobOp) (now : N) (t : JobTable)
    (id : JobId) (s : Status) :
  target o = Some (id, s) -> t !! id = None ->
  exists e, call_op o now t = (Throw e, t).
Proof.
  intros Ho E.
  destruct o; simpl in Ho; try discriminate Ho; injection Ho as -> <-;
    cbv [call_op Jobs.setProcessing Jobs.setCompleted Jobs.setFailed
         PublicJobs.setJobProcessing PublicJobs.setJobCompleted
         PublicJobs.setJobFailed PublicJobs.setJobCompletedWithFile];
    unfold db_patch; rewrite E; eauto.
Qed.

Lemma X2_witness :
  exists e, PublicJobs.setJobFailed 3 "boom" 9%N (run lifecycle_failed [])
            = (Throw e, run lifecycle_failed []).
Proof.
  exact (X2_unknown_job_throws (OpSetJobFailed 3 "boom") 9%N
           (run lifecycle_failed []) 3 failed eq_refl eq_refl).
Defined.

Lemma same_snapshot_trans (a b c : Job) :
  same_snapshot a b -> same_snapshot b c -> same_snapshot a c.
Proof.
  unfold same_snapshot. intros (?&?&?&?&?) (?&?&?&?&?).
  repeat split; congruence.
Qed.

Lemma apply_op_snapshot (o : JobOp) (now : N) (t : JobTable) (id : JobId)
    (j : Job) :
  t !! id = Some j ->
  exists j', apply_op o now t !! id = Some j' /\ same_snapshot j j'.
Proof.
  intros E.
  destruct o as [| i | i | i | | i | i | i | i]; unfold_mutations;
    try (exists j; split; [by apply db_insert_lookup|by repeat split]).
  all: destruct (decide (i = id)) as [->|Hne];
    [ rewrite (db_patch_lookup_eq _ _ _ _ E); eexists; split; [reflexivity|];
      by repeat split
    | rewrite db_patch_lookup_ne by exact Hne;
      exists j; split; [exact E|by repeat split] ].
Qed.

Lemma apply_op_length (o : JobOp) (now : N) (t : JobTable) :
  length t <= length (apply_op o now t).
Proof.
  destruct o; unfold_mutations; unfold db_insert, db_patch; simpl;
    rewrite ?length_app; simpl; try lia.
  all: destruct (t !! jobId); simpl; rewrite ?length_insert; lia.
Qed.

(** X3. No sequence of mutations rewrites what a job was created with: its
    source URL, its configuration snapshot, its preset name, its batch id and
    its creation time stay as they were, and no job ever leaves the table. *)
Theorem X3_snapshot_is_never_rewritten (ops : list (JobOp * N))
    (t : JobTable) (id : JobId) (j : Job) :
  t !! id = Some j ->
  (exists j', run ops t !! id = Some j' /\ same_snapshot j j')
  /\ length t <= length (run ops t).
Proof.
  revert t j. induction ops as [|o ops IH]; intros t j E.
  - split; [|simpl; lia]. exists j. split; [exact E|by repeat split].
  - rewrite run_cons.
    destruct (apply_op_snapshot o.1 o.2 t id j E) as (j1 & E1 & H1).
    destruct (IH _ j1 E1) as [(j' & E' & H') Hlen].
    split.
    + exists j'. split; [exact E'|]. by apply (same_snapshot_trans j j1 j').
    + pose proof (apply_op_length o.1 o.2 t). lia.
Qed.

Lemma X3_witness :
  exists j', run (tail lifecycle_failed) one_pending !! 0 = Some j'
             /\ config j' = sample_config
             /\ sourceUrl j' = "https://example.com/a-red.jpg".
Proof.
  destruct (proj1 (X3_snapshot_is_never_rewritten (tail lifecycle_failed)
                     one_pending 0 _ eq_refl))
    as (j' & E & Hu & Hc & _).
  exists j'. split; [exact E|]. split; [exact Hc|exact Hu].
Defined.

(** X4. A created job gets the next position as its id; read back by that
    id it is pending with the given fields and nothing else set (except, for
    the frontend's [createJob], the source name kept as
    [generatedFileName]); every job that was there is unchanged. *)
Theorem X4_create_then_get (sourceUrl sourceName : string) (config : Config)
    (presetName batchId : option string) (now : N) (t : JobTable) :
  let r := PublicJobs.createJob sourceUrl sourceName config presetName
             batchId now t in
  let r' := Jobs.create sourceUrl config presetName batchId now t in
  r.1 = length t /\ r'.1 = length t
  /\ PublicJobs.getJob r.1 r.2
     = Some (mkJob batchId sourceUrl presetName config pending None None
               (Some sourceName) None None None None None now None)
  /\ Jobs.getById r'.1 r'.2
     = Some (mkJob batchId sourceUrl presetName config pending None None
               None None None None None None now None)
  /\ (forall i, i < length t ->
        PublicJobs.getJob i r.2 = PublicJobs.getJob i t
        /\ Jobs.getById i r'.2 = Jobs.getById i t).
Proof.
  simpl. unfold PublicJobs.getJob, Jobs.getById, db_get.
  repeat split.
  - by rewrite lookup_app_r, Nat.sub_diag.
  - by rewrite lookup_app_r, Nat.sub_diag.
  - by apply lookup_app_l.
  - by apply lookup_app_l.
Qed.

Lemma X4_witness :
  PublicJobs.getJob 0
    (PublicJobs.createJob "https://example.com/b-blue.jpg" "b-blue.jpg"
       sample_config None None 2%N one_pending).2
  = PublicJobs.getJob 0 one_pending.
Proof.
  apply (X4_create_then_get "https://example.com/b-blue.jpg" "b-blue.jpg"
           sample_config None None 2%N one_pending).
  simpl. lia.
Defined.

(** ** Pages *)

Lemma js_slice_window {A} (l : list A) (k n : Z) :
  (0 <= k)%Z -> (0 <= n)%Z ->
  js_slice l k (k + n) = take (Z.to_nat n) (drop (Z.to_nat k) l).
Proof.
  intros Hk Hn. unfold js_slice.
  destruct (k <? 0)%Z eqn:E1; [lia|]. destruct (k + n <? 0)%Z eqn:E2; [lia|].
  destruct (Z_le_gt_dec (Z.of_nat (length l)) k) as [Hge|Hlt].
  - rewrite !drop_ge by lia. by rewrite !take_nil.
  - rewrite (Z.min_l k) by lia.
    destruct (Z_le_gt_dec (k + n) (Z.of_nat (length l))) as [Hin|Hout].
    + rewrite Z.min_l by lia. f_equal. lia.
    + rewrite Z.min_r by lia.
      rewrite !take_ge; [reflexivity|rewrite length_drop; lia..].
Qed.




Lemma by_status_spec (s : Status) (t : JobTable) (d : JobDoc) :
  d ∈ by_status s t <-> t !! d.1 = Some d.2 /\ status d.2 = s.
Proof.
  destruct d as [i j]. unfold by_status.
  rewrite list_elem_of_filter, list_elem_of_lookup. simpl.
  split.
  - intros [Hs [k Hk]]. rewrite docs_lookup in Hk.
    destruct (t !! k) as [j'|] eqn:E; simplify_eq/=. by split.
  - intros [Hd Hs]. split; [exact Hs|]. exists i.
    rewrite docs_lookup. unfold JobId in *. by rewrite Hd.
Qed.

(** X6. With a status and no batch id (or the empty batch id), [listJobs]
    returns only jobs of that status, each as it is stored, and [total] is
    the number of jobs of that status in the whole table. *)
Theorem X6_listJobs_by_status (limit offset : option Z) (s : Status)
    (b : option string) (t : JobTable) :
  b = None \/ b = Some "" ->
  let page := PublicJobs.listJobs limit offset (Some s) b t in
  (forall d, d ∈ page_jobs page -> status d.2 = s /\ t !! d.1 = Some d.2)
  /\ page_total page = count_status s (docs t).
Proof.
  intros Hb. cbv zeta.
  assert (Hsel : exists lo hi,
            page_jobs (PublicJobs.listJobs limit offset (Some s) b t)
            = js_slice (by_status s t) lo hi
            /\ page_total (PublicJobs.listJobs limit offset (Some s) b t)
               = length (by_status s t)).
  { destruct Hb as [-> | ->]; eexists _, _; split; reflexivity. }
  destruct Hsel as (lo & hi & -> & ->).
  split; [|reflexivity].
  intros d Hd. unfold js_slice in Hd.
  apply elem_of_take in Hd as (i & Hd & _). rewrite lookup_drop in Hd.
  apply list_elem_of_lookup_2 in Hd. apply by_status_spec in Hd. tauto.
Qed.

Lemma X6_witness :
  page_total (PublicJobs.listJobs None None (Some completed) None
                (run two_jobs [])) = 1.
Proof.
  exact (eq_trans
           (proj2 (X6_listJobs_by_status None None completed None
                     (run two_jobs []) (or_introl eq_refl)))
           eq_refl).
Defined.

Lemma insert_desc_perm (d : JobDoc) (l : list JobDoc) :
  insert_desc d l ≡ₚ d :: l.
Proof.
  induction l as [|x l IH]; simpl; [reflexivity|].
  destruct (createdAt d.2 <=? createdAt x.2)%N; [|reflexivity].
  rewrite IH. apply Permutation_swap.
Qed.

Lemma insert_desc_sorted (d : JobDoc) (l : list JobDoc) :
  StronglySorted newer_or_equal l ->
  StronglySorted newer_or_equal (insert_desc d l).
Proof.
  induction l as [|x l IH]; intros Hs; simpl.
  - repeat constructor.
  - apply StronglySorted_inv in Hs as [Hl Hx].
    destruct (createdAt d.2 <=? createdAt x.2)%N eqn:E.
    + apply N.leb_le in E. constructor; [by apply IH|].
      rewrite insert_desc_perm. by constructor.
    + apply N.leb_gt in E. constructor; [by constructor|].
      constructor; [unfold newer_or_equal; lia|].
      eapply Forall_impl; [exact Hx|]. unfold newer_or_equal. simpl.
      intros y Hy. lia.
Qed.

Lemma by_createdAt_desc_perm (t : JobTable) : by_createdAt_desc t ≡ₚ docs t.
Proof.
  unfold by_createdAt_desc. induction (docs t) as [|d l IH]; simpl;
    [reflexivity|].
  by rewrite insert_desc_perm, IH.
Qed.

Lemma by_createdAt_desc_sorted (t : JobTable) :
  StronglySorted newer_or_equal (by_createdAt_desc t).
Proof.
  unfold by_createdAt_desc. induction (docs t) as [|d l IH]; simpl;
    [constructor|].
  by apply insert_desc_sorted.
Qed.

(** X7. Without a filter (or with the empty batch id alone), [listJobs]
    lists every job of the table once, the newest first: [total] is the
    number of jobs, and the page that asks for all of them is a permutation
    of the table in descending [createdAt]. *)
Theorem X7_listJobs_newest_first (b : option string) (t : JobTable) :
  b = None \/ b = Some "" ->
  let page :=
    PublicJobs.listJobs (Some (Z.of_nat (length t))) None None b t in
  page_total page = length t
  /\ page_jobs page ≡ₚ docs t
  /\ StronglySorted newer_or_equal (page_jobs page).
Proof.
  intros Hb. cbv zeta.
  assert (Hpage :
    page_jobs (PublicJobs.listJobs (Some (Z.of_nat (length t))) None None b t)
    = by_createdAt_desc t
    /\ page_total (PublicJobs.listJobs (Some (Z.of_nat (length t))) None None b t)
       = length t).
  { assert (Hlen : length (by_createdAt_desc t) = length t)
      by (rewrite by_createdAt_desc_perm; apply docs_length).
    assert (Hall :
      js_slice (by_createdAt_desc t) 0 (0 + Z.of_nat (length t))
      = by_createdAt_desc t).
    { rewrite js_slice_window by lia. simpl. rewrite Nat2Z.id.
      apply take_ge. lia. }
    destruct Hb as [-> | ->]; by split. }
  destruct Hpage as [-> ->].
  split; [reflexivity|].
  split; [apply by_createdAt_desc_perm|apply by_createdAt_desc_sorted].
Qed.

Lemma X7_witness :
  map fst (page_jobs (PublicJobs.listJobs (Some 2%Z) None None None
                        (run two_jobs []))) = [1; 0]
  /\ page_jobs (PublicJobs.listJobs (Some 2%Z) None None None
                  (run two_jobs [])) ≡ₚ docs (run two_jobs []).
Proof.
  split; [reflexivity|].
  apply (X7_listJobs_newest_first None (run two_jobs [])). by left.
Defined.

(** X8. [getRecentJobsSummary] looks at the hundred newest jobs only: its
    [total] is the number of jobs or 100, whichever is smaller, its four
    counters add up to that [total], and for a limit that is not negative
    [recentJobs] are the first [limit] of those hundred. *)
Theorem X8_recent_summary_scans_100 (limit : Z) (t : JobTable) :
  let r := getRecentJobsSummary (Some limit) t in
  total r.1 = Nat.min 100 (length t)
  /\ total r.1 = count_completed r.1 + count_failed r.1 + count_pending r.1
                 + count_processing r.1
  /\ ((0 <= limit)%Z ->
      r.2 = take (Z.to_nat limit) (take 100 (by_createdAt_desc t))
      /\ length r.2 <= 100).
Proof.
  cbv zeta. unfold getRecentJobsSummary.
  assert (Hlen : length (take 100 (by_createdAt_desc t))
                 = Nat.min 100 (length t)).
  { rewrite length_take, by_createdAt_desc_perm. by rewrite docs_length. }
  set (newest := take 100 (by_createdAt_desc t)) in *.
  cbn [fst snd default].
  split; [exact Hlen|].
  split; [apply (summarize_partition newest)|].
  intros Hl.
  assert (Hw := js_slice_window newest 0 limit ltac:(lia) Hl).
  rewrite Z.add_0_l in Hw. change (id limit) with limit. rewrite Hw.
  change (Z.to_nat 0) with 0. rewrite drop_0.
  split; [reflexivity|]. rewrite length_take. lia.
Qed.

Lemma X8_witness :
  (getRecentJobsSummary (Some 1%Z) (run two_jobs [])).2
  = take 1 (take 100 (by_createdAt_desc (run two_jobs []))).
Proof.
  apply (X8_recent_summary_scans_100 1 (run two_jobs [])). lia.
Defined.

(** * More properties of the preset store *)

Lemma by_name_nil (n : string) (t : PresetTable) :
  by_name n t = [] <-> forall i p, t !! i = Some p -> preset_name p <> n.
Proof.
  split.
  - intros E i p Hi Hn.
    assert (Hin : (i, p) ∈ by_name n t) by (by apply by_name_elem).
    rewrite E in Hin. by apply not_elem_of_nil in Hin.
  - intros H. destruct (by_name n t) as [|[i p] l] eqn:E; [reflexivity|].
    assert (Hin : (i, p) ∈ by_name n t) by (rewrite E; apply list_elem_of_here).
    apply by_name_elem in Hin as [Hi Hn]. by destruct (H i p Hi).
Qed.

Lemma by_name_singleton (n : string) (t : PresetTable) (d : PresetDoc) :
  by_name n t = [d] ->
  filter (fun d : PresetId * Preset => preset_name d.2 = n) t = {[d.1 := d.2]}.
Proof.
  unfold by_name. intros H.
  rewrite <- (list_to_map_to_list (filter _ t)), H. by destruct d.
Qed.

Lemma names_unique_by_name (n : string) (t : PresetTable) :
  names_unique t -> by_name n t = [] \/ exists d, by_name n t = [d].
Proof.
  intros Hu. destruct (by_name n t) as [|d1 [|d2 l]] eqn:E; eauto.
  exfalso.
  pose proof (NoDup_fst_map_to_list
                (filter (fun d : PresetId * Preset => preset_name d.2 = n) t))
    as Hnd.
  fold (by_name n t) in Hnd. rewrite E in Hnd. simpl in Hnd.
  assert (H1 : d1 ∈ by_name n t) by (rewrite E; set_solver).
  assert (H2 : d2 ∈ by_name n t) by (rewrite E; set_solver).
  destruct d1 as [i p], d2 as [j q].
  apply by_name_elem in H1 as [H1 Hp]. apply by_name_elem in H2 as [H2 Hq].
  assert (i = j) as -> by (apply (Hu i j p q H1 H2); congruence).
  apply NoDup_cons in Hnd as [Hnd _]. simpl in Hnd. set_solver.
Qed.

Lemma create_handler_unique (n : string) (c : Config) (now : N)
    (t : PresetTable) :
  names_unique t -> names_unique (create_handler n c now t).2.
Proof.
  intros Hu. unfold create_handler.
  destruct (by_name n t) as [|d [|d' l]] eqn:E; simpl; try exact Hu.
  pose proof (proj1 (by_name_nil n t) E) as Hfree.
  assert (Hfresh : t !! fresh (dom t) = None)
    by (apply not_elem_of_dom, is_fresh).
  intros i j p q Hi Hj Hpq.
  apply lookup_insert_Some in Hi as [[<- <-]|[Hni Hi]];
    apply lookup_insert_Some in Hj as [[<- <-]|[Hnj Hj]]; simpl in *.
  - reflexivity.
  - exfalso. by apply (Hfree j q Hj).
  - exfalso. by apply (Hfree i p Hi).
  - by apply (Hu i j p q).
Qed.

Lemma update_handler_unique (n : string) (c : Config) (now : N)
    (t : PresetTable) :
  names_unique t -> names_unique (update_handler n c now t).2.
Proof.
  intros Hu. unfold update_handler.
  destruct (unique (by_name n t)) as [[[id p]|]|e] eqn:E; simpl; try exact Hu.
  destruct (update_handler_existing n c now t id p E) as (Hid & _ & _).
  intros i j p1 p2 Hi Hj Hpq.
  apply lookup_insert_Some in Hi as [[<- <-]|[Hni Hi]];
    apply lookup_insert_Some in Hj as [[<- <-]|[Hnj Hj]]; simpl in *.
  - reflexivity.
  - by apply (Hu id j p p2).
  - by apply (Hu i id p1 p).
  - by apply (Hu i j p1 p2).
Qed.

Lemma delete_handler_unique (n : string) (t : PresetTable) :
  names_unique t -> names_unique (delete_handler n t).2.
Proof.
  intros Hu. unfold delete_handler.
  destruct (unique (by_name n t)) as [[[id p]|]|e]; simpl; try exact Hu.
  intros i j p1 p2 Hi Hj Hpq.
  apply lookup_delete_Some in Hi as [_ Hi].
  apply lookup_delete_Some in Hj as [_ Hj].
  by apply (Hu i j p1 p2).
Qed.

Lemma apply_preset_op_unique (o : PresetOp) (now : N) (t : PresetTable) :
  names_unique t -> names_unique (apply_preset_op o now t).
Proof.
  intros Hu. destruct o; simpl.
  - unfold PublicPresets.createPreset.
    destruct (negb (truthy name) || (String.length (trim name) =? 0)%nat);
      [exact Hu|by apply create_handler_unique].
  - by apply create_handler_unique.
  - by apply update_handler_unique.
  - by apply delete_handler_unique.
Qed.

(** X9. Whatever preset mutations are called one after the other on an
    empty table, no two presets ever have the same name; so the lookup by
    name never meets two documents, and [getPreset] and
    [isPresetNameAvailable] never throw. *)
Theorem X9_preset_names_stay_unique (ops : list (PresetOp * N))
    (name : string) :
  names_unique (run_presets ops ∅)
  /\ (exists r, PublicPresets.getPreset name (run_presets ops ∅) = Ok r)
  /\ (exists a, PublicPresets.isPresetNameAvailable name (run_presets ops ∅)
                = Ok a).
Proof.
  assert (Hu : names_unique (run_presets ops ∅)).
  { unfold run_presets.
    assert (H0 : names_unique (∅ : PresetTable))
      by (intros i j p q Hi; by rewrite lookup_empty in Hi).
    revert H0. generalize (∅ : PresetTable).
    induction ops as [|o ops IH]; intros t Ht; [exact Ht|].
    simpl. apply IH. by apply apply_preset_op_unique. }
  split; [exact Hu|].
  unfold PublicPresets.getPreset, PublicPresets.isPresetNameAvailable.
  destruct (names_unique_by_name name _ Hu) as [-> | [d ->]]; simpl; eauto.
Qed.

Lemma unique_Some_inv {A} (l : list A) (d : A) :
  unique l = Ok (Some d) -> l = [d].
Proof. destruct l as [|x [|y l]]; simpl; congruence. Qed.

Lemma unique_None_inv {A} (l : list A) : unique l = Ok None -> l = [].
Proof. destruct l as [|x [|y l]]; simpl; congruence. Qed.

Lemma by_name_delete (n : string) (t : PresetTable) (id : PresetId)
    (p : Preset) :
  by_name n t = [(id, p)] -> by_name n (delete id t) = [].
Proof.
  intros H. apply by_name_nil. intros i q Hi Hn.
  apply lookup_delete_Some in Hi as [Hne Hi].
  assert (Hin : (i, q) ∈ by_name n t) by (by apply by_name_elem).
  rewrite H in Hin. apply list_elem_of_singleton in Hin. congruence.
Qed.

(** X10. Deleting an existing preset removes that document and no other:
    afterwards the name is not found and is available again, and every
    other preset is stored as before. *)
Theorem X10_delete_removes_one (name : string) (t : PresetTable)
    (id : PresetId) (p : Preset) :
  PublicPresets.getPreset name t = Ok (Some (id, p)) ->
  PublicPresets.deletePreset name t = (Ok tt, delete id t)
  /\ Presets.deleteByName name t = (Ok tt, delete id t)
  /\ PublicPresets.getPreset name (delete id t) = Ok None
  /\ PublicPresets.isPresetNameAvailable name (delete id t) = Ok true
  /\ (forall i, i <> id -> delete id t !! i = t !! i).
Proof.
  unfold PublicPresets.getPreset. intros H.
  pose proof (unique_Some_inv _ _ H) as Hone.
  pose proof (by_name_delete name t id p Hone) as Hgone.
  unfold PublicPresets.deletePreset, Presets.deleteByName, delete_handler,
    PublicPresets.isPresetNameAvailable.
  rewrite H, Hgone. simpl. repeat split.
  intros i Hne. by apply lookup_delete_ne.
Qed.

Lemma X10_witness :
  PublicPresets.getPreset "X" (PublicPresets.deletePreset "X" one_preset).2
  = Ok None.
Proof.
  destruct (X10_delete_removes_one "X" one_preset 0
              (mkPreset "X" pro_config 1%N 1%N) eq_refl)
    as (Hd & _ & Hg & _).
  by rewrite Hd.
Defined.

(** X11. Updating or deleting a name that no preset has throws the
    not-found error and writes nothing. *)
Theorem X11_unknown_name_not_found (name : string) (C : Config) (now : N)
    (t : PresetTable) :
  PublicPresets.getPreset name t = Ok None ->
  PublicPresets.updatePreset name C now t = (Throw (not_found name), t)
  /\ Presets.update name C now t = (Throw (not_found name), t)
  /\ PublicPresets.deletePreset name t = (Throw (not_found name), t)
  /\ Presets.deleteByName name t = (Throw (not_found name), t).
Proof.
  unfold PublicPresets.getPreset. intros H.
  unfold PublicPresets.updatePreset, Presets.update, update_handler,
    PublicPresets.deletePreset, Presets.deleteByName, delete_handler.
  by rewrite H.
Qed.

Lemma X11_witness :
  PublicPresets.deletePreset "Y" one_preset
  = (Throw (not_found "Y"), one_preset).
Proof.
  apply (X11_unknown_name_not_found "Y" sample_config 0%N one_preset).
  reflexivity.
Defined.

(** X12. The frontend's [createPreset] refuses a name that is empty or made
    of white space only, and writes nothing; the internal [presets.create],
    which the HTTP route calls, has no such check and stores a preset under
    a blank name that is free. *)
Theorem X12_blank_name (name : string) (C : Config) (now : N)
    (t : PresetTable) :
  trim name = "" ->
  PublicPresets.createPreset name C now t
  = (Throw (Error "Preset name cannot be empty"), t)
  /\ (PublicPresets.getPreset name t = Ok None ->
      exists id, Presets.create name C now t
                 = (Ok id, <[id := mkPreset name C now now]> t)
                 /\ t !! id = None).
Proof.
  intros Hblank. split.
  - unfold PublicPresets.createPreset. rewrite Hblank. simpl.
    by rewrite orb_true_r.
  - unfold PublicPresets.getPreset. intros H.
    unfold Presets.create, create_handler. rewrite H. simpl.
    exists (fresh (dom t)). split; [reflexivity|].
    apply not_elem_of_dom, is_fresh.
Qed.

Lemma X12_witness :
  PublicPresets.createPreset "  " sample_config 1%N ∅
  = (Throw (Error "Preset name cannot be empty"), ∅)
  /\ exists id, Presets.create "  " sample_config 1%N ∅
                = (Ok id, <[id := mkPreset "  " sample_config 1%N 1%N]> ∅).
Proof.
  destruct (X12_blank_name "  " sample_config 1%N ∅ eq_refl) as [H1 H2].
  split; [exact H1|].
  destruct (H2 eq_refl) as (id & H & _). by exists id.
Defined.

(** X13. [isPresetNameAvailable] answers true exactly when [getPreset]
    finds nothing. For a name that is available and not blank
    [createPreset] succeeds, and afterwards the name is no longer available
    and [getPreset] returns the preset just created. *)
Theorem X13_available_then_create (name : string) (C : Config) (now : N)
    (t : PresetTable) :
  (PublicPresets.isPresetNameAvailable name t = Ok true
   <-> PublicPresets.getPreset name t = Ok None)
  /\ (PublicPresets.isPresetNameAvailable name t = Ok true ->
      trim name <> "" ->
      exists id t',
        PublicPresets.createPreset name C now t = (Ok id, t')
        /\ PublicPresets.isPresetNameAvailable name t' = Ok false
        /\ PublicPresets.getPreset name t'
           = Ok (Some (id, mkPreset name C now now))
        /\ (forall i q, t !! i = Some q -> t' !! i = Some q)).
Proof.
  assert (Hiff : PublicPresets.isPresetNameAvailable name t = Ok true
                 <-> PublicPresets.getPreset name t = Ok None).
  { unfold PublicPresets.isPresetNameAvailable, PublicPresets.getPreset.
    destruct (unique (by_name name t)) as [[d|]|e]; simpl; split;
      congruence. }
  split; [exact Hiff|].
  intros Hav Hname. apply Hiff in Hav.
  unfold PublicPresets.getPreset in Hav.
  assert (Hcheck : negb (truthy name) || (String.length (trim name) =? 0)%nat
                   = false).
  { destruct name as [|c s]; [by destruct Hname|]. simpl.
    destruct (trim (String c s)) eqn:E; [by destruct Hname|reflexivity]. }
  destruct (create_handler name C now t) as [r t'] eqn:Hc.
  assert (Hr : exists id, r = Ok id).
  { unfold create_handler in Hc. rewrite Hav in Hc. simpl in Hc.
    injection Hc as <- _. eauto. }
  destruct Hr as [id ->].
  destruct (create_handler_twice name C C now now t t' id Hc)
    as (Hone & Hid & _).
  exists id, t'. unfold PublicPresets.createPreset. rewrite Hcheck, Hc.
  unfold PublicPresets.isPresetNameAvailable, PublicPresets.getPreset.
  rewrite Hone. simpl. repeat split.
  intros i q Hi. unfold create_handler in Hc. rewrite Hav in Hc. simpl in Hc.
  injection Hc as _ <-.
  rewrite lookup_insert_ne; [exact Hi|].
  intros <-. assert (t !! fresh (dom t) = None)
    by (apply not_elem_of_dom, is_fresh). congruence.
Qed.

Lemma X13_witness :
  exists id t',
    PublicPresets.createPreset "Y" sample_config 2%N one_preset = (Ok id, t')
    /\ PublicPresets.isPresetNameAvailable "Y" t' = Ok false.
Proof.
  destruct (proj2 (X13_available_then_create "Y" sample_config 2%N one_preset)
              eq_refl ltac:(discriminate))
    as (id & t' & Hc & Ha & _).
  by exists id, t'.
Defined.

Lemma patch_config_idem (C old : Config) :
  patch_config C (patch_config C old) = patch_config C old.
Proof.
  unfold patch_config, patch_field. simpl.
  by destruct C as [? ? ? ? ? ? [] ? ? [] [] []].
Qed.

Lemma by_name_update (n : string) (t : PresetTable) (id : PresetId)
    (p p' : Preset) :
  by_name n t = [(id, p)] -> preset_name p' = n ->
  by_name n (<[id := p']> t) = [(id, p')].
Proof.
  intros H Hn. pose proof (by_name_singleton n t _ H) as Hf. simpl in Hf.
  unfold by_name. rewrite map_filter_insert_True by exact Hn.
  rewrite Hf, insert_singleton_eq. apply map_to_list_singleton.
Qed.

(** X14. Updating an existing preset rewrites that document only: it is
    still found under its name and id, with the patched configuration, and
    the other presets are as before. Updating a second time with the same
    configuration at the same time changes nothing more. *)
Theorem X14_update_in_place (name : string) (C : Config) (now : N)
    (t : PresetTable) (id : PresetId) (p : Preset) :
  PublicPresets.getPreset name t = Ok (Some (id, p)) ->
  let t' := (PublicPresets.updatePreset name C now t).2 in
  PublicPresets.getPreset name t'
  = Ok (Some (id, mkPreset name (patch_config C (preset_config p))
                    (preset_createdAt p) now))
  /\ dom t' = dom t
  /\ (forall i, i <> id -> t' !! i = t !! i)
  /\ PublicPresets.updatePreset name C now t' = (Ok tt, t').
Proof.
  unfold PublicPresets.getPreset. intros H. cbv zeta.
  destruct (update_handler_existing name C now t id p H) as (Hid & Hn & Hup).
  pose proof (unique_Some_inv _ _ H) as Hone.
  unfold PublicPresets.updatePreset. rewrite Hup. simpl. rewrite Hn.
  set (p' := mkPreset name (patch_config C (preset_config p))
               (preset_createdAt p) now).
  assert (Hone' : by_name name (<[id := p']> t) = [(id, p')])
    by (by apply by_name_update with p).
  rewrite Hone'. simpl. split; [reflexivity|].
  split; [apply dom_insert_lookup_L; eauto|].
  split; [intros i Hne; by apply lookup_insert_ne|].
  unfold update_handler. rewrite Hone'. simpl.
  rewrite patch_config_idem. fold p'. by rewrite insert_insert_eq.
Qed.

Lemma X14_witness :
  PublicPresets.updatePreset "X" sample_config 5%N
    (PublicPresets.updatePreset "X" sample_config 5%N one_preset).2
  = (Ok tt, (PublicPresets.updatePreset "X" sample_config 5%N one_preset).2).
Proof.
  apply (X14_update_in_place "X" sample_config 5%N one_preset 0
           (mkPreset "X" pro_config 1%N 1%N)).
  reflexivity.
Defined.

(** * More properties of the filename deriver *)

Lemma default_name_extension (now : N) : hasExtension (default_name now) = true.
Proof.
  unfold default_name. rewrite <- append_assoc. apply hasExtension_png.
Qed.

Lemma name_has_extension {engine : RegExp}
    (originalName findPattern replacePattern : string) (now : N) :
  hasExtension
    (generateOutputFilename originalName findPattern replacePattern now)
  = true.
Proof.
  unfold generateOutputFilename, try_rename.
  destruct (truthy findPattern && truthy replacePattern);
    [|apply default_name_extension].
  destruct (compile findPattern) as [re|e]; [|apply default_name_extension].
  destruct (test re (working_name originalName));
    [|apply default_name_extension].
  destruct (hasExtension (replace _ re _)) eqn:E; [exact E|].
  apply hasExtension_png.
Qed.

(** X15. Whatever the name, the patterns, the clock and the regular
    expression engine, the derived file name ends in one of the image
    extensions [.png], [.jpg], [.jpeg], [.webp], [.gif] (in any case); in
    particular it is never empty. *)
Theorem X15_name_has_image_extension {engine : RegExp}
    (originalName findPattern replacePattern : string) (now : N) :
  hasExtension
    (generateOutputFilename originalName findPattern replacePattern now)
  = true
  /\ generateOutputFilename originalName findPattern replacePattern now <> "".
Proof.
  pose proof (name_has_extension originalName findPattern replacePattern now)
    as H.
  split; [exact H|]. intros E. rewrite E in H. discriminate H.
Qed.


Lemma split_free (sep : ascii) (s : string) :
  Forall (fun x => free_of sep x = true) (split sep s).
Proof.
  unfold free_of. induction s as [|c s IH]; simpl; [by repeat constructor|].
  destruct (Ascii.eqb c sep) eqn:E; [by constructor|].
  destruct (split sep s) as [|h tl].
  - constructor; [simpl; by rewrite E|constructor].
  - apply Forall_cons in IH as [Hh Htl].
    constructor; [simpl; by rewrite E, Hh|exact Htl].
Qed.

Lemma Forall_last {A} (P : A -> Prop) (l : list A) (d : A) :
  Forall P l -> P d -> P (List.last l d).
Proof.
  induction l as [|x [|y l] IH]; intros Hl Hd; simpl; [exact Hd|..].
  - by apply Forall_cons in Hl as [Hx _].
  - apply IH; [|exact Hd]. by apply Forall_cons in Hl as [_ Hl].
Qed.

Lemma or_else_image (p : string -> Prop) (o : option string) :
  p "image" -> (forall s, o = Some s -> p s) ->
  p (or_else o "image") /\ or_else o "image" <> "".
Proof.
  intros Hi Ho. unfold or_else.
  destruct o as [[|c s]|]; simpl; split; try done.
  by apply Ho.
Qed.



(** X17. [getFilenameFromUrl] never returns the empty string and never a
    name with a slash, whatever the URL and whatever the URL parser
    answers. *)
Theorem X17_getFilenameFromUrl (env : Env) (url : string) :
  getFilenameFromUrl env url <> ""
  /\ free_of "/" (getFilenameFromUrl env url) = true.
Proof.
  unfold getFilenameFromUrl.
  destruct (url_pathname env url) as [pathname|]; [|by split].
  destruct (or_else_image (fun s => free_of "/" s = true)
              (Some (List.last (split "/" pathname) ""))) as [H1 H2].
  - reflexivity.
  - intros s [= <-]. apply Forall_last; [apply split_free|reflexivity].
  - by split.
Qed.




(** * More properties of the orchestrator *)

Lemma processJob_unknown {engine : RegExp} (env : Env) (jobId : JobId)
    (t : JobTable) :
  t !! jobId = None ->
  processJob env jobId t = (Throw (Error "Job not found"), t).
Proof.
  intros E. unfold processJob, Jobs.getById, db_get. by rewrite E.
Qed.

(** X19. [processJob] called with the id of no job throws ["Job not
    found"] before it writes anything. Called with the id of a job, it
    throws only what its [catch] clause throws: a step of the [try] block
    has thrown a value whose message cannot be recorded. *)
Theorem X19_processJob_unknown_job {engine : RegExp} (env : Env)
    (jobId : JobId) (t : JobTable) :
  (t !! jobId = None ->
   processJob env jobId t = (Throw (Error "Job not found"), t))
  /\ (forall job e',
        t !! jobId = Some job -> (processJob env jobId t).1 = Throw e' ->
        exists e, generate env job = Throw e
                  /\ recordable e = false
                  /\ failure_message e = Throw e').
Proof.
  split; [apply processJob_unknown|].
  intros job e' E Hthrow.
  destruct (processJob_returns env jobId t job E)
    as (r & t' & j' & Hp & _ & Hs).
  rewrite Hp in Hthrow. simpl in Hthrow. subst r.
  destruct (generate env job) as [g|e]; [by destruct Hs|].
  exists e. split; [reflexivity|].
  destruct (recordable e) eqn:Hr.
  - rewrite (failure_message_recordable e Hr) in Hs. by destruct Hs.
  - split; [reflexivity|].
    destruct (failure_message e); destruct Hs as [Hs _]; congruence.
Qed.

Lemma X19_witness :
  processJob (engine := Backtracking.engine) healthy 7 one_pending
  = (Throw (Error "Job not found"), one_pending).
Proof.
  apply (proj1 (X19_processJob_unknown_job (engine := Backtracking.engine)
                  healthy 7 one_pending)).
  reflexivity.
Defined.

Lemma db_patch_frame (id : JobId) (f : Job -> Job) (t : JobTable) :
  length (db_patch id f t).2 = length t
  /\ (forall i, i <> id -> (db_patch id f t).2 !! i = t !! i).
Proof.
  split.
  - unfold db_patch. destruct (t !! id); simpl; [apply length_insert|done].
  - intros i Hne. by apply db_patch_lookup_ne.
Qed.

(** What [processJob] does to the table, as two patches of the job. *)
Lemma processJob_patches {engine : RegExp} (env : Env) (jobId : JobId)
    (t : JobTable) (job : Job) :
  t !! jobId = Some job ->
  exists r f,
    processJob env jobId t = (r, <[jobId := f (set_status processing job)]> t)
    /\ match generate env job with
       | Ok g =>
           r = Ok tt
           /\ f = fun j =>
             set_completedAt (Some (now_mutation env))
               (set_usage (Some (g_promptTokens g))
                  (Some (g_candidateTokens g)) (Some (g_totalTokens g))
                  (set_generatedUrl (Some (g_url g))
                     (set_generatedFileName (Some (g_fileName g))
                        (set_generatedFileId (Some (g_fileId g))
                           (set_status completed j)))))
       | Throw e =>
           match failure_message e with
           | Ok msg =>
               r = Ok tt
               /\ f = fun j =>
                 set_completedAt (Some (now_mutation env))
                   (set_error (Some msg) (set_status failed j))
           | Throw e' => r = Throw e' /\ f = fun j => j
           end
       end.
Proof.
  intros E. rewrite (processJob_existing env jobId t job E). cbv zeta.
  pose proof (lookup_lt_Some _ _ _ E) as Hlt.
  assert (E1 : <[jobId := set_status processing job]> t !! jobId
               = Some (set_status processing job))
    by (by apply list_lookup_insert_eq).
  destruct (generate env job) as [g|e].
  - unfold Jobs.setCompleted, db_patch. rewrite E1.
    eexists _, _. split; [|split; reflexivity].
    simpl. by rewrite list_insert_insert_eq.
  - destruct (failure_message e) as [msg|e'].
    + unfold Jobs.setFailed, db_patch. rewrite E1.
      eexists _, _. split; [|split; reflexivity].
      simpl. by rewrite list_insert_insert_eq.
    + eexists _, (fun j => j). split; [reflexivity|]. by split.
Qed.

(** X20. [processJob] writes to the job it is given and to no other: the
    table keeps its length, every other job is unchanged, and of the job
    itself the source URL, the configuration, the preset name, the batch id
    and the creation time are unchanged. *)
Theorem X20_processJob_frame {engine : RegExp} (env : Env) (jobId : JobId)
    (t : JobTable) :
  let t' := (processJob env jobId t).2 in
  length t' = length t
  /\ (forall i, i <> jobId -> t' !! i = t !! i)
  /\ (forall job, t !! jobId = Some job ->
        exists job', t' !! jobId = Some job' /\ same_snapshot job job').
Proof.
  cbv zeta. destruct (t !! jobId) as [job|] eqn:E.
  - destruct (processJob_patches env jobId t job E) as (r & f & -> & Hf).
    simpl.
    split; [apply length_insert|].
    split; [intros i Hne; by apply list_lookup_insert_ne|].
    intros job0 [= <-]. eexists. split.
    + apply list_lookup_insert_eq. by apply lookup_lt_Some in E.
    + destruct (generate env job) as [g|e]; [|destruct (failure_message e)];
        destruct Hf as [_ ->]; by repeat split.
  - rewrite processJob_unknown by exact E. simpl.
    repeat split. intros job H. discriminate H.
Qed.

Lemma X20_witness :
  (processJob (engine := Backtracking.engine) blocked 1 three_pending).2 !! 0
  = three_pending !! 0.
Proof.
  apply (X20_processJob_frame (engine := Backtracking.engine) blocked 1
           three_pending).
  discriminate.
Defined.




(** X22. A run that throws never clears what an earlier run stored, and a
    run that succeeds never clears an earlier error: after a failure the
    storage id, the file name, the URLs and [totalTokens] of the job are as
    before, whether the failure could be recorded (the job has failed) or
    not (the job is left in processing), and after a success its [error] is
    as before. *)
Theorem X22_results_are_never_cleared {engine : RegExp} (env : Env)
    (jobId : JobId) (t : JobTable) (job : Job) :
  t !! jobId = Some job ->
  exists job',
    (processJob env jobId t).2 !! jobId = Some job'
    /\ (forall e, generate env job = Throw e ->
        status job' = (if recordable e then failed else processing)
        /\ generatedFileId job' = generatedFileId job
        /\ generatedFileName job' = generatedFileName job
        /\ generatedUrl job' = generatedUrl job
        /\ generatedUrlWithExtension job' = generatedUrlWithExtension job
        /\ totalTokens job' = totalTokens job)
    /\ ((exists g, generate env job = Ok g) ->
        status job' = completed /\ error job' = error job).
Proof.
  intros E.
  destruct (processJob_patches env jobId t job E) as (r & f & -> & Hf).
  eexists. split;
    [apply list_lookup_insert_eq; by apply lookup_lt_Some in E|].
  split.
  - intros e He. rewrite He in Hf.
    destruct (recordable e) eqn:Hr.
    + rewrite (failure_message_recordable e Hr) in Hf.
      destruct Hf as [_ ->]. by repeat split.
    + destruct (failure_message_other e Hr) as [e' He']. rewrite He' in Hf.
      destruct Hf as [_ ->]. by repeat split.
  - intros [g Hg]. rewrite Hg in Hf. destruct Hf as [_ ->]. by repeat split.
Qed.

Lemma X22_witness :
  exists job',
    (processJob (engine := Backtracking.engine) offline 0
       (run lifecycle_completed [])).2 !! 0 = Some job'
    /\ status job' = failed
    /\ generatedUrl job' = Some "https://files/1"
    /\ totalTokens job' = Some (of_Z 30).
Proof.
  destruct (X22_results_are_never_cleared (engine := Backtracking.engine)
              offline 0 (run lifecycle_completed []) _ eq_refl)
    as (job' & E & Hfail & _).
  destruct (Hfail (Error "fetch failed") eq_refl)
    as (Hs & _ & _ & Hu & _ & Ht).
  exists job'. by repeat split.
Defined.

(** X23. The failures of the source image and of the model are recorded
    with their own messages. When the fetch answers with a status that is
    not ok, the job fails with ["Failed to fetch image: "], the status and
    the status text. When the first candidate of the model's answer has a
    finish reason that is not empty and not ["STOP"], the job fails with
    ["Generation stopped: "] and the reason. *)
Theorem X23_failure_messages {engine : RegExp} (env : Env) (jobId : JobId)
    (t : JobTable) (job : Job) (response : Response) :
  t !! jobId = Some job ->
  fetch env (sourceUrl job) = Ok response ->
  (ok response = false ->
   error <$> (processJob env jobId t).2 !! jobId
   = Some (Some ("Failed to fetch image: " +:+ toString (resp_status response)
                 +:+ " " +:+ statusText response)))
  /\ (forall body answer candidate others reason,
        ok response = true -> arrayBuffer response = Ok body ->
        truthy (default "" (GEMINI_API_KEY env)) = true ->
        (forall request, generateContent env request = Ok answer) ->
        candidates answer = Some (candidate :: others) ->
        finishReason candidate = Some reason ->
        reason <> "" -> reason <> "STOP" ->
        error <$> (processJob env jobId t).2 !! jobId
        = Some (Some ("Generation stopped: " +:+ reason))).
Proof.
  intros E Hfetch.
  destruct (processJob_patches env jobId t job E) as (res & f & -> & Hf).
  simpl. rewrite list_lookup_insert_eq by (by apply lookup_lt_Some in E).
  split.
  - intros Hok.
    assert (Hg : generate env job
                 = Throw (Error ("Failed to fetch image: "
                                 +:+ toString (resp_status response)
                                 +:+ " " +:+ statusText response))).
    { unfold generate, fetchImageAsBase64. rewrite Hfetch. simpl.
      by rewrite Hok. }
    rewrite Hg in Hf. cbn in Hf. destruct Hf as [_ ->]. simpl.
    by destruct (_ +:+ _).
  - intros body answer candidate others reason Hok Hbody Hkey Hgen Hc Hr
      Hne Hstop.
    assert (Hg : generate env job
                 = Throw (Error ("Generation stopped: " +:+ reason))).
    { unfold generate, fetchImageAsBase64. rewrite Hfetch. simpl.
      rewrite Hok, Hbody. simpl. rewrite Hkey. simpl.
      rewrite Hgen. simpl. rewrite Hc. simpl. rewrite Hr.
      apply String.eqb_neq in Hstop.
      destruct reason as [|c r]; [contradiction|].
      cbn -[String.eqb]. by rewrite Hstop. }
    rewrite Hg in Hf. cbn in Hf. destruct Hf as [_ ->]. simpl.
    by destruct reason.
Qed.

Lemma X23_witness :
  error <$> (processJob (engine := Backtracking.engine) blocked 0
               one_pending).2 !! 0
  = Some (Some "Generation stopped: SAFETY").
Proof.
  apply (proj2 (X23_failure_messages (engine := Backtracking.engine) blocked 0
                  one_pending _ _ eq_refl eq_refl)
           "/9j/4AAQ" (mkGenResponse None
                         (Some [mkCandidate (Some "SAFETY") None]))
           (mkCandidate (Some "SAFETY") None) [] "SAFETY");
    try reflexivity; discriminate.
Defined.

(** * The orchestrator on a batch *)

(** One call of [processJob] on an existing job: the job is rewritten, with
    the status of its outcome; the call returns normally exactly when the
    outcome could be recorded; a pending job that satisfies the invariant of
    the internal store still satisfies it. *)
Lemma processJob_step {engine : RegExp} (env : Env) (jobId : JobId)
    (t : JobTable) (job : Job) :
  t !! jobId = Some job ->
  exists r job',
    processJob env jobId t = (r, <[jobId := job']> t)
    /\ status job' = outcome env job
    /\ (if settles env job then r = Ok tt else exists e', r = Throw e')
    /\ (status job = pending -> job_invariant job = true ->
        job_invariant job' = true).
Proof.
  intros E.
  destruct (processJob_patches env jobId t job E) as (r & f & Hp & Hf).
  exists r, (f (set_status processing job)). split; [exact Hp|].
  unfold outcome, settles.
  destruct (generate env job) as [g|e].
  - destruct Hf as [-> ->]. repeat split.
    intros Hs Hi.
    destruct job as [? ? ? ? [] [] [] [] ? ? ? ? ? ? []]; done.
  - destruct (recordable e) eqn:Hr.
    + rewrite (failure_message_recordable e Hr) in Hf.
      destruct Hf as [-> ->]. repeat split.
      intros Hs Hi.
      destruct job as [? ? ? ? [] [] [] [] ? ? ? ? ? ? []]; done.
    + destruct (failure_message_other e Hr) as [e' He']. rewrite He' in Hf.
      destruct Hf as [-> ->]. repeat split; [by exists e'|].
      intros Hs Hi.
      destruct job as [? ? ? ? [] [] [] [] ? ? ? ? ? ? []]; done.
Qed.

Lemma docs_ids (t : JobTable) : (docs t).*1 = seq 0 (length t).
Proof.
  unfold docs. rewrite fmap_imap.
  etrans; [exact (imap_seq_0 t (fun i => i))|]. apply list_fmap_id.
Qed.

Lemma by_batchId_NoDup (b : string) (t : JobTable) :
  NoDup (by_batchId b t).*1.
Proof.
  apply (sublist_NoDup _ (docs t).*1).
  - rewrite docs_ids. apply NoDup_seq.
  - apply fmap_sublist. unfold by_batchId. apply sublist_filter.
Qed.

Lemma by_batchId_elem (b : string) (t : JobTable) (d : JobDoc) :
  d ∈ by_batchId b t <-> t !! d.1 = Some d.2 /\ batchId d.2 = Some b.
Proof.
  unfold by_batchId. rewrite list_elem_of_filter. split.
  - intros [Hb Hd]. split; [by apply elem_of_docs|exact Hb].
  - intros [Hd Hb]. split; [exact Hb|].
    unfold docs. apply elem_of_lookup_imap. exists d.1, d.2.
    split; [by destruct d|exact Hd].
Qed.

(** The loop of [processBatch] over jobs of distinct ids that are in the
    table, when every outcome can be recorded: it returns normally; each job
    of the list that was pending has the status of its outcome, and every
    other job of the table is as before. *)
Lemma processBatch_loop_settles {engine : RegExp} (envs : JobId -> Env)
    (jobs : list JobDoc) : forall t : JobTable,
  NoDup jobs.*1 ->
  (forall d, d ∈ jobs -> t !! d.1 = Some d.2) ->
  (forall d, d ∈ jobs -> status d.2 = pending ->
             settles (envs d.1) d.2 = true) ->
  exists t',
    processBatch_loop envs jobs t = (Ok tt, t')
    /\ length t' = length t
    /\ (forall d, d ∈ jobs -> status d.2 = pending ->
          exists job', t' !! d.1 = Some job'
                       /\ status job' = outcome (envs d.1) d.2)
    /\ (forall i, (forall d, d ∈ jobs -> status d.2 = pending -> d.1 <> i) ->
          t' !! i = t !! i).
Proof.
  induction jobs as [|d jobs IH]; intros t Hnd Hin Hok.
  - exists t. repeat split; try done. intros d Hd. by apply elem_of_nil in Hd.
  - rewrite fmap_cons in Hnd. apply NoDup_cons in Hnd as [Hd Hnd].
    assert (Hd' : forall d', d' ∈ jobs -> d'.1 <> d.1).
    { intros d' Hd' Heq. apply Hd. rewrite <- Heq.
      by apply list_elem_of_fmap_2. }
    simpl. unfold Status_eqb. case_bool_decide as Hs.
    + destruct (processJob_step (envs d.1) d.1 t d.2
                  (Hin d (list_elem_of_here _ _)))
        as (r & job' & Hp & Hst & Hr & _).
      rewrite (Hok d (list_elem_of_here _ _) Hs) in Hr. subst r.
      rewrite Hp.
      pose proof (lookup_lt_Some _ _ _ (Hin d (list_elem_of_here _ _))) as Hlt.
      destruct (IH (<[d.1 := job']> t) Hnd) as (t' & Hl & Hlen & Hdone & Hfr).
      { intros d' Hm. rewrite list_lookup_insert_ne by (symmetry; by apply Hd').
        apply Hin. by apply list_elem_of_further. }
      { intros d' Hm. apply Hok. by apply list_elem_of_further. }
      exists t'. split; [exact Hl|].
      split; [by rewrite Hlen, length_insert|]. split.
      * intros d0 Hm Hs0. apply elem_of_cons in Hm as [->|Hm].
        -- exists job'. split; [|exact Hst].
           rewrite Hfr by (intros d' Hm' _; by apply Hd').
           by apply list_lookup_insert_eq.
        -- by apply Hdone.
      * intros i Hi. rewrite Hfr.
        -- apply list_lookup_insert_ne.
           apply (Hi d (list_elem_of_here _ _) Hs).
        -- intros d' Hm' Hs'. apply Hi; [by apply list_elem_of_further|done].
    + destruct (IH t Hnd) as (t' & Hl & Hlen & Hdone & Hfr).
      { intros d' Hm. apply Hin. by apply list_elem_of_further. }
      { intros d' Hm. apply Hok. by apply list_elem_of_further. }
      exists t'. split; [exact Hl|]. split; [exact Hlen|]. split.
      * intros d0 Hm Hs0. apply elem_of_cons in Hm as [->|Hm]; [done|].
        by apply Hdone.
      * intros i Hi. apply Hfr.
        intros d' Hm' Hs'. apply Hi; [by apply list_elem_of_further|done].
Qed.

(** X24. When the outcome of every pending job of a batch can be recorded,
    [processBatch] returns normally; every job of the batch that was pending
    is then completed or failed, as its own run of the [try] block decides,
    and every other job of the table, in the batch or not, is as before. *)
Theorem X24_processBatch_settles_batch {engine : RegExp}
    (envs : JobId -> Env) (b : string) (t : JobTable) :
  (forall i job, t !! i = Some job -> batchId job = Some b ->
                 status job = pending -> settles (envs i) job = true) ->
  exists t',
    processBatch envs b t = (Ok tt, t')
    /\ length t' = length t
    /\ (forall i job,
          t !! i = Some job -> batchId job = Some b -> status job = pending ->
          exists job', t' !! i = Some job'
                       /\ status job' = outcome (envs i) job
                       /\ (status job' = completed \/ status job' = failed))
    /\ (forall i job,
          t !! i = Some job ->
          batchId job <> Some b \/ status job <> pending ->
          t' !! i = Some job).
Proof.
  intros Hok. unfold processBatch, Jobs.getByBatchId.
  destruct (processBatch_loop_settles envs (by_batchId b t) t)
    as (t' & Hl & Hlen & Hdone & Hfr).
  - apply by_batchId_NoDup.
  - intros d Hd. by apply by_batchId_elem in Hd as [Hd _].
  - intros d Hd Hs. apply by_batchId_elem in Hd as [Hd Hb]. by eapply Hok.
  - exists t'. split; [exact Hl|]. split; [exact Hlen|]. split.
    + intros i job E Hb Hs.
      destruct (Hdone (i, job)) as (job' & E' & Hst); [|exact Hs|].
      { by apply by_batchId_elem. }
      exists job'. split; [exact E'|]. split; [exact Hst|].
      simpl in Hst. rewrite Hst.
      specialize (Hok i job E Hb Hs). unfold settles in Hok. unfold outcome.
      destruct (generate (envs i) job); [by left|]. rewrite Hok. by right.
    + intros i job E Hne. rewrite Hfr; [exact E|].
      intros d Hd Hs <-. apply by_batchId_elem in Hd as [Hd Hb].
      pose proof (eq_trans (eq_sym E) Hd) as Heq. injection Heq as ->.
      by destruct Hne.
Qed.

Lemma X24_witness :
  exists t',
    processBatch (engine := Backtracking.engine) second_blocked "batch_3"
      three_pending = (Ok tt, t')
    /\ (status <$> t') = [completed; failed; completed].
Proof.
  destruct (X24_processBatch_settles_batch (engine := Backtracking.engine)
              second_blocked "batch_3" three_pending)
    as (t' & Hp & _).
  - intros [|[|[|i]]] job E _ _; vm_compute in E; [| | |discriminate];
      injection E as <-; reflexivity.
  - exists t'. split; [exact Hp|].
    vm_compute in Hp. injection Hp as <-. reflexivity.
Defined.

Lemma processBatch_loop_app {engine : RegExp} (envs : JobId -> Env)
    (l1 l2 : list JobDoc) : forall t : JobTable,
  processBatch_loop envs (l1 ++ l2) t
  = match processBatch_loop envs l1 t with
    | (Ok _, t1) => processBatch_loop envs l2 t1
    | (Throw e, t1) => (Throw e, t1)
    end.
Proof.
  induction l1 as [|d l1 IH]; intros t; [reflexivity|]. simpl.
  destruct (Status_eqb (status d.2) pending); [|apply IH].
  destruct (processJob (envs d.1) d.1 t) as [[[]|e] t1]; [apply IH|done].
Qed.

(** X25. [processBatch] stops at the first pending job whose failure cannot
    be recorded: the call throws what the [catch] clause of [processJob]
    threw, that job is left in processing, and the jobs of the batch after
    it are not touched, so that those that were pending stay pending. *)
Theorem X25_processBatch_stops_at_throw {engine : RegExp}
    (envs : JobId -> Env) (b : string) (t : JobTable)
    (before after : list JobDoc) (d : JobDoc) :
  by_batchId b t = before ++ d :: after ->
  (forall d', d' ∈ before -> status d'.2 = pending ->
              settles (envs d'.1) d'.2 = true) ->
  status d.2 = pending ->
  settles (envs d.1) d.2 = false ->
  exists e e' t' job',
    generate (envs d.1) d.2 = Throw e
    /\ failure_message e = Throw e'
    /\ processBatch envs b t = (Throw e', t')
    /\ t' !! d.1 = Some job' /\ status job' = processing
    /\ (forall d', d' ∈ after -> t' !! d'.1 = Some d'.2).
Proof.
  intros Hsplit Hok Hs Hbad.
  pose proof (by_batchId_NoDup b t) as Hnd.
  assert (Hin : forall d', d' ∈ by_batchId b t -> t !! d'.1 = Some d'.2).
  { intros d' Hd'. by apply by_batchId_elem in Hd' as [Hd' _]. }
  rewrite Hsplit in Hnd, Hin.
  rewrite fmap_app, fmap_cons in Hnd.
  apply NoDup_app in Hnd as (Hnd1 & Hdisj & Hnd2).
  apply NoDup_cons in Hnd2 as [Hd Hnd2].
  unfold processBatch, Jobs.getByBatchId. rewrite Hsplit.
  rewrite processBatch_loop_app.
  destruct (processBatch_loop_settles envs before t Hnd1)
    as (t1 & -> & Hlen & _ & Hfr).
  { intros d' Hd'. apply Hin. apply elem_of_app. by left. }
  { exact Hok. }
  assert (Hkeep : forall d', d' ∈ d :: after -> t1 !! d'.1 = Some d'.2).
  { intros d' Hd'. rewrite Hfr.
    - apply Hin. apply elem_of_app. by right.
    - intros d0 Hd0 _ Heq. apply (Hdisj d0.1).
      + by apply list_elem_of_fmap_2.
      + rewrite Heq. by apply (list_elem_of_fmap_2 fst) in Hd'. }
  simpl. unfold Status_eqb. rewrite bool_decide_eq_true_2 by exact Hs.
  destruct (processJob_step (envs d.1) d.1 t1 d.2
              (Hkeep d (list_elem_of_here _ _)))
    as (r & job' & Hp & Hst & Hr & _).
  rewrite Hbad in Hr. destruct Hr as [e' ->]. rewrite Hp.
  unfold settles in Hbad. unfold outcome in Hst.
  destruct (generate (envs d.1) d.2) as [g|e] eqn:Hg; [discriminate|].
  rewrite Hbad in Hst.
  assert (He : failure_message e = Throw e').
  { destruct (processJob_returns (envs d.1) d.1 t1 d.2
                (Hkeep d (list_elem_of_here _ _)))
      as (r0 & t0 & j0 & Hp0 & _ & Hs0).
    rewrite Hp in Hp0. injection Hp0 as <- _. rewrite Hg in Hs0.
    destruct (failure_message e); destruct Hs0 as [Hs0 _]; congruence. }
  exists e, e', (<[d.1 := job']> t1), job'.
  split; [reflexivity|]. split; [exact He|]. split; [reflexivity|].
  pose proof (lookup_lt_Some _ _ _ (Hkeep d (list_elem_of_here _ _))) as Hlt.
  split; [by apply list_lookup_insert_eq|]. split; [exact Hst|].
  intros d' Hd'. rewrite list_lookup_insert_ne.
  - apply Hkeep. by apply list_elem_of_further.
  - intros Heq. apply Hd. rewrite Heq. by apply list_elem_of_fmap_2.
Qed.

Lemma X25_witness :
  exists e' t',
    processBatch (engine := Backtracking.engine) second_rejects "batch_3"
      three_pending = (Throw e', t')
    /\ (status <$> t') = [completed; processing; pending].
Proof.
  destruct (X25_processBatch_stops_at_throw (engine := Backtracking.engine)
              second_rejects "batch_3" three_pending
              (take 1 (by_batchId "batch_3" three_pending))
              (drop 2 (by_batchId "batch_3" three_pending))
              (1, second_of_three))
    as (e & e' & t' & job' & _ & _ & Hp & _).
  - reflexivity.
  - intros d' Hd' _. vm_compute in Hd'.
    apply list_elem_of_singleton in Hd'. by subst d'.
  - reflexivity.
  - reflexivity.
  - exists e', t'. split; [exact Hp|].
    vm_compute in Hp. injection Hp as _ <-. reflexivity.
Defined.





